(** * MeshSync watch-list resolution: [internal/config/crd_config.go]

    A shallow embedding of [PopulateConfigsFromMap] and of the package-level
    state it reads, followed by the properties of the resolution of an
    allow-list ("whitelist") or deny-list ("blacklist") against the static
    pipeline registry. *)

From Stdlib Require Import ZArith.
From stdpp Require Import base option strings list gmap.

(** ** Data model *)

(** Modelled from the spec: the struct [ResourceConfig], one element of the
    whitelist, is declared in another file of the package.  The spec's
    AllowEntry carries a resource name and an event set; these are the two
    fields the source reads ([c.Resource], [config.Events]). *)
Module ResourceConfig.
Record t : Type := mk { Resource : string; Events : list string }.
End ResourceConfig.

(** Modelled from the spec: the struct [PipelineConfig] is declared in another
    file of the package.  The spec's PipelineDefinition carries a resource
    name and an event set; these are the two fields the source reads
    ([v.Name]) and writes ([v.Events]).  A [PipelineConfigs] slice holds the
    structs by value, so the loop variable of a [range] is a copy. *)
Module PipelineConfig.
Record t : Type := mk { Name : string; Events : list string }.
End PipelineConfig.

Abbreviation PipelineConfigs := (list PipelineConfig.t).

(** Modelled from the spec: the struct [MeshsyncConfig] is declared in another
    file of the package.  The spec's ResolvedConfig holds the deny-list, the
    allow-list and the map from scope to pipelines; these are the three
    fields the source uses.  A Go map is a reference that may be nil, hence
    the [option]; a nil slice and an empty slice are both the empty list (the
    source only ever takes their [len] and ranges over them). *)
Module MeshsyncConfig.
Record t : Type := mk {
  BlackList : list string;
  Pipelines : option (gmap string PipelineConfigs);
  WhiteList : list ResourceConfig.t
}.
End MeshsyncConfig.

(** Modelled from the spec: [ErrInitConfig] is declared in another file of the
    package.  Go's [error] values met in this file are those [errors.New]
    builds from a text, and those [ErrInitConfig] builds from a cause, which
    it is taken to wrap so that the spec's two validation failures stay
    apart. *)
Inductive error : Type :=
| errors_New (text : string)
| ErrInitConfig (err : error).

(** The two validation failures, under the names the spec gives them. *)
Definition MissingSelection : error :=
  ErrInitConfig (errors_New "Both whitelisted and blacklisted resources missing").

Definition ConflictingSelection : error :=
  ErrInitConfig
    (errors_New "Both whitelisted and blacklisted resources not currently supported").

(** Modelled from the spec: the scope keys are constants declared in another
    file of the package; the spec fixes the identifiers "global" and
    "local". *)
Definition GlobalResourceKey : string := "global".
Definition LocalResourceKey : string := "local".

(** The package-level variables read by the resolution: the pipeline registry
    [Pipelines] and the event set [DefaultEvents].  They are declared and
    given their values in another file of the package, so every statement
    below holds for arbitrary values of both. *)
Record Globals : Type := {
  Pipelines : gmap string PipelineConfigs;
  DefaultEvents : list string
}.

(** ** Effects: package-level state, and run-time panics *)

(** A computation reads and may write the package-level variables, and
    either panics ([None]) or returns a value with the new state. *)
Definition M (A : Type) : Type := Globals → option (A * Globals).

#[global] Instance M_ret : MRet M := λ A x g, Some (x, g).

#[global] Instance M_bind : MBind M :=
  λ A B k m g, match m g with
               | Some (x, g') => k x g'
               | None => None
               end.

Definition panic {A} : M A := λ _, None.

(** [Pipelines[key]]: reading a Go map at an absent key gives the zero value,
    here the nil slice. *)
Definition readPipelines (key : string) : M PipelineConfigs :=
  λ g, Some (Pipelines g !!! key, g).

Definition readDefaultEvents : M (list string) :=
  λ g, Some (DefaultEvents g, g).

(** [s[i]]: indexing a slice out of range panics. *)
Definition index {E} (s : list E) (i : Z) : M E :=
  if (i <? 0)%Z then panic
  else match s !! Z.to_nat i with
       | Some x => mret x
       | None => panic
       end.

(** [m[key] = val]: assignment to an entry of a nil map panics. *)
Definition mapStore (m : option (gmap string PipelineConfigs))
    (key : string) (val : PipelineConfigs)
  : M (option (gmap string PipelineConfigs)) :=
  match m with
  | None => panic
  | Some m => mret (Some (<[key := val]> m))
  end.

(** [for _, v := range s { acc = body(v, acc) }] *)
Fixpoint forRange {V A} (s : list V) (body : V → A → M A) (acc : A) : M A :=
  match s with
  | [] => mret acc
  | v :: s' => acc' ← body v acc; forRange s' body acc'
  end.

(** [slices.IndexFunc]: the first index whose element satisfies [f],
    or -1. *)
Fixpoint IndexFunc_from {E} (i : Z) (s : list E) (f : E → bool) : Z :=
  match s with
  | [] => (-1)%Z
  | x :: s' => if f x then i else IndexFunc_from (i + 1)%Z s' f
  end.

Definition IndexFunc {E} (s : list E) (f : E → bool) : Z :=
  IndexFunc_from 0%Z s f.

(** ** [PopulateConfigsFromMap], lines 114-186 *)

Definition setPipelines (c : MeshsyncConfig.t)
    (m : option (gmap string PipelineConfigs)) : MeshsyncConfig.t :=
  MeshsyncConfig.mk (MeshsyncConfig.BlackList c) m (MeshsyncConfig.WhiteList c).

(** Body of the two whitelist loops (lines 129-135 and 142-148). *)
Definition whiteListStep (meshsyncConfig : MeshsyncConfig.t)
    (v : PipelineConfig.t) (pipelines : PipelineConfigs) : M PipelineConfigs :=
  let idx :=
    IndexFunc (MeshsyncConfig.WhiteList meshsyncConfig)
      (λ c, String.eqb (ResourceConfig.Resource c) (PipelineConfig.Name v)) in
  if (idx =? -1)%Z then mret pipelines
  else
    config ← index (MeshsyncConfig.WhiteList meshsyncConfig) idx;
    let v := PipelineConfig.mk (PipelineConfig.Name v)
               (ResourceConfig.Events config) in
    mret (pipelines ++ [v]).

(** Body of the two blacklist loops (lines 159-164 and 171-176). *)
Definition blackListStep (meshsyncConfig : MeshsyncConfig.t)
    (v : PipelineConfig.t) (pipelines : PipelineConfigs) : M PipelineConfigs :=
  let idx :=
    IndexFunc (MeshsyncConfig.BlackList meshsyncConfig)
      (λ c, String.eqb c (PipelineConfig.Name v)) in
  if (idx =? -1)%Z then
    events ← readDefaultEvents;
    let v := PipelineConfig.mk (PipelineConfig.Name v) events in
    mret (pipelines ++ [v])
  else mret pipelines.

(** Lines 136-139 and 165-168. *)
Definition storeGlobal (meshsyncConfig : MeshsyncConfig.t)
    (globalPipelines : PipelineConfigs) : M MeshsyncConfig.t :=
  if (0 <? length globalPipelines)%nat then
    let meshsyncConfig := setPipelines meshsyncConfig (Some ∅) in
    m ← mapStore (MeshsyncConfig.Pipelines meshsyncConfig)
          GlobalResourceKey globalPipelines;
    mret (setPipelines meshsyncConfig m)
  else mret meshsyncConfig.

(** Lines 150-155 and 178-183. *)
Definition storeLocal (meshsyncConfig : MeshsyncConfig.t)
    (localPipelines : PipelineConfigs) : M MeshsyncConfig.t :=
  if (0 <? length localPipelines)%nat then
    let meshsyncConfig :=
      match MeshsyncConfig.Pipelines meshsyncConfig with
      | None => setPipelines meshsyncConfig (Some ∅)
      | Some _ => meshsyncConfig
      end in
    m ← mapStore (MeshsyncConfig.Pipelines meshsyncConfig)
          LocalResourceKey localPipelines;
    mret (setPipelines meshsyncConfig m)
  else mret meshsyncConfig.

(** The function from its first validation check on: [meshsyncConfig] is the
    configuration as the two [Unmarshal] calls left it.  The result is Go's
    pair of a pointer (nil is [None]) and an error (nil is [None]). *)
Definition resolvePipelines (meshsyncConfig : MeshsyncConfig.t)
  : M (option MeshsyncConfig.t * option error) :=
  let BlackList := MeshsyncConfig.BlackList meshsyncConfig in
  let WhiteList := MeshsyncConfig.WhiteList meshsyncConfig in
  if (length BlackList =? 0)%nat && (length WhiteList =? 0)%nat then
    mret (None, Some MissingSelection)
  else if negb (length BlackList =? 0)%nat && negb (length WhiteList =? 0)%nat then
    mret (None, Some ConflictingSelection)
  else
    let globalPipelines : PipelineConfigs := [] in
    let localPipelines : PipelineConfigs := [] in
    if negb (length WhiteList =? 0)%nat then
      registered ← readPipelines GlobalResourceKey;
      globalPipelines ←
        forRange registered (whiteListStep meshsyncConfig) globalPipelines;
      meshsyncConfig ← storeGlobal meshsyncConfig globalPipelines;
      registered ← readPipelines LocalResourceKey;
      localPipelines ←
        forRange registered (whiteListStep meshsyncConfig) localPipelines;
      meshsyncConfig ← storeLocal meshsyncConfig localPipelines;
      mret (Some meshsyncConfig, None)
    else
      registered ← readPipelines GlobalResourceKey;
      globalPipelines ←
        forRange registered (blackListStep meshsyncConfig) globalPipelines;
      meshsyncConfig ← storeGlobal meshsyncConfig globalPipelines;
      registered ← readPipelines LocalResourceKey;
      localPipelines ←
        forRange registered (blackListStep meshsyncConfig) localPipelines;
      meshsyncConfig ← storeLocal meshsyncConfig localPipelines;
      mret (Some meshsyncConfig, None).

(** The configuration after the two [Unmarshal] calls: the parsed lists, and
    a nil [Pipelines] map. *)
Definition selection (BlackList : list string)
    (WhiteList : list ResourceConfig.t) : MeshsyncConfig.t :=
  MeshsyncConfig.mk BlackList None WhiteList.

(** ** [PopulateConfigsFromMap], whole *)

Section Unmarshal.

(** [utils.Unmarshal] belongs to an external library: its two uses, at
    type [[]string] and at type [[]ResourceConfig], are left arbitrary. *)
Variable UnmarshalStrings : string → error + list string.
Variable UnmarshalResourceConfigs : string → error + list ResourceConfig.t.

(** Lines 96-103 and 105-112: the key is looked up, and a non-empty value
    is parsed into the field, which otherwise stays nil. *)
Definition unmarshalField {T} (Unmarshal : string → error + list T)
    (data : gmap string string) (key : string) : error + list T :=
  match data !! key with
  | Some _ =>
      if (0 <? String.length (data !!! key))%nat
      then Unmarshal (data !!! key)
      else inr []
  | None => inr []
  end.

Definition PopulateConfigsFromMap (data : gmap string string)
  : M (option MeshsyncConfig.t * option error) :=
  let meshsyncConfig := MeshsyncConfig.mk [] None [] in
  match unmarshalField UnmarshalStrings data "blacklist" with
  | inl err => mret (None, Some (ErrInitConfig err))
  | inr BlackList =>
      let meshsyncConfig :=
        MeshsyncConfig.mk BlackList
          (MeshsyncConfig.Pipelines meshsyncConfig)
          (MeshsyncConfig.WhiteList meshsyncConfig) in
      match unmarshalField UnmarshalResourceConfigs data "whitelist" with
      | inl err => mret (None, Some (ErrInitConfig err))
      | inr WhiteList =>
          let meshsyncConfig :=
            MeshsyncConfig.mk (MeshsyncConfig.BlackList meshsyncConfig)
              (MeshsyncConfig.Pipelines meshsyncConfig) WhiteList in
          resolvePipelines meshsyncConfig
      end
  end.

End Unmarshal.

(** ** The callers: [PopulateConfigs], [GetMeshsyncCRDConfigsLocal],
    [GetMeshsyncCRDConfigs] *)

(** [corev1.ConfigMap], an external type: [Data] is the one field read. *)
Record ConfigMap : Type := { Data : gmap string string }.

Section Callers.

(** The non-nil values an [interface{}] may hold are left arbitrary; an
    [interface{}] is then an [option], nil being [None].  [asMap] is the
    type assertion [.(map[string]interface{})] on a non-nil value. *)
Variable Dyn : Type.
Variable asMap : Dyn → option (gmap string (option Dyn)).

(** [unstructured.Unstructured], an external type: [Object] is the one
    field read. *)
Record Unstructured : Type := { Object : gmap string (option Dyn) }.

(** [GetMeshsyncCRD] (lines 70-74) is one call to the cluster through the
    dynamic client: what it returns for a client is left arbitrary. *)
Variable DynamicInterface : Type.
Variable GetMeshsyncCRD : DynamicInterface → option Unstructured * option error.

(** [utils.Marshal] and [utils.Unmarshal] belong to an external library. *)
Variable Marshal : Dyn → error + string.
Variable UnmarshalConfigMap : string → error + ConfigMap.
Variable UnmarshalStrings : string → error + list string.
Variable UnmarshalResourceConfigs : string → error + list ResourceConfig.t.

(** The package-level map [LocalMeshsyncConfig] is given its value in another
    file of the package. *)
Variable LocalMeshsyncConfig : gmap string string.

(** [m[key]] on a [map[string]interface{}]: an absent key reads as nil. *)
Definition mapIndex (m : gmap string (option Dyn)) (key : string) : option Dyn :=
  match m !! key with
  | Some x => x
  | None => None
  end.

(** [x.(map[string]interface{})] with its [ok] flag: it fails on nil. *)
Definition assertMap (x : option Dyn) : option (gmap string (option Dyn)) :=
  match x with
  | Some d => asMap d
  | None => None
  end.

(** Lines 89-91. *)
Definition PopulateConfigs (configMap : ConfigMap)
  : M (option MeshsyncConfig.t * option error) :=
  PopulateConfigsFromMap UnmarshalStrings UnmarshalResourceConfigs
    (Data configMap).

(** Lines 76-86. *)
Definition GetMeshsyncCRDConfigsLocal
  : M (option MeshsyncConfig.t * option error) :=
  r ← PopulateConfigsFromMap UnmarshalStrings UnmarshalResourceConfigs
        LocalMeshsyncConfig;
  let '(meshsyncConfig, err) := r in
  match err with
  | Some err => mret (None, Some err)
  | None => mret (meshsyncConfig, None)
  end.

(** Lines 28-68. *)
Definition GetMeshsyncCRDConfigs (dyClient : DynamicInterface)
  : M (option MeshsyncConfig.t * option error) :=
  let '(crd, err) := GetMeshsyncCRD dyClient in
  match err with
  | Some err => mret (None, Some (ErrInitConfig err))
  | None =>
  match crd with
  | None =>
      mret (None, Some (ErrInitConfig (errors_New "Custom Resource is nil")))
  | Some crd =>
  let spec := mapIndex (Object crd) "spec" in
  match assertMap spec with
  | None =>
      mret (None,
            Some (ErrInitConfig (errors_New "Unable to convert spec to map")))
  | Some specMap =>
  let configObj := mapIndex specMap "watch-list" in
  match configObj with
  | None =>
      mret (None,
            Some (ErrInitConfig
                    (errors_New "Custom Resource does not have Meshsync Configs")))
  | Some configObj =>
  match Marshal configObj with
  | inl err => mret (None, Some (ErrInitConfig err))
  | inr configStr =>
  match UnmarshalConfigMap configStr with
  | inl err => mret (None, Some (ErrInitConfig err))
  | inr configMap =>
      r ← PopulateConfigs configMap;
      let '(meshsyncConfig, err) := r in
      match err with
      | Some err => mret (None, Some (ErrInitConfig err))
      | None => mret (meshsyncConfig, None)
      end
  end end end end end end.

End Callers.

(** ** Vocabulary of the statements *)

(** The two scopes of the registry and of the output. *)
Inductive Scope : Type := ScopeGlobal | ScopeLocal.

Definition scopeKey (s : Scope) : string :=
  match s with
  | ScopeGlobal => GlobalResourceKey
  | ScopeLocal => LocalResourceKey
  end.

(** The registry's definitions for a scope, in registry order. *)
Definition definitionsForScope (g : Globals) (s : Scope) : PipelineConfigs :=
  Pipelines g !!! scopeKey s.

(** Reading the resolved map at a key, as a Go caller does: a nil map and an
    absent key both read as the nil slice. *)
Definition pipelinesAt (c : MeshsyncConfig.t) (key : string) : PipelineConfigs :=
  match MeshsyncConfig.Pipelines c with
  | Some m => m !!! key
  | None => []
  end.

(** The key is present in the resolved map. *)
Definition keyPresent (c : MeshsyncConfig.t) (key : string) : Prop :=
  ∃ m, MeshsyncConfig.Pipelines c = Some m ∧ is_Some (m !! key).

(** The first whitelist entry whose resource name is [name]. *)
Definition firstMatch (WhiteList : list ResourceConfig.t) (name : string)
  : option ResourceConfig.t :=
  List.find (λ c, String.eqb (ResourceConfig.Resource c) name) WhiteList.

(** A definition with its event set replaced. *)
Definition withEvents (events : list string) (v : PipelineConfig.t)
  : PipelineConfig.t :=
  PipelineConfig.mk (PipelineConfig.Name v) events.

(** The pipeline a whitelist resolves a definition to, if any. *)
Definition allowed (WhiteList : list ResourceConfig.t) (v : PipelineConfig.t)
  : option PipelineConfig.t :=
  (λ c, withEvents (ResourceConfig.Events c) v)
    <$> firstMatch WhiteList (PipelineConfig.Name v).

(** The pipelines one scope resolves to. *)
Definition allowedPipelines (WhiteList : list ResourceConfig.t)
    (vs : PipelineConfigs) : PipelineConfigs :=
  omap (allowed WhiteList) vs.

Definition notDeniedPipelines (BlackList events : list string)
    (vs : PipelineConfigs) : PipelineConfigs :=
  withEvents events <$> filter (λ v, PipelineConfig.Name v ∉ BlackList) vs.

(** The pipelines a selection resolves one scope to. *)
Definition resolvedPipelines (BlackList : list string)
    (WhiteList : list ResourceConfig.t) (g : Globals) (s : Scope)
  : PipelineConfigs :=
  match WhiteList with
  | [] => notDeniedPipelines BlackList (DefaultEvents g) (definitionsForScope g s)
  | _ :: _ => allowedPipelines WhiteList (definitionsForScope g s)
  end.

(** The resolved map holding the two output lists, empty lists left out. *)
Definition pipelinesMap (globalPipelines localPipelines : PipelineConfigs)
  : option (gmap string PipelineConfigs) :=
  match globalPipelines, localPipelines with
  | [], [] => None
  | _ :: _, [] => Some {[ GlobalResourceKey := globalPipelines ]}
  | [], _ :: _ => Some {[ LocalResourceKey := localPipelines ]}
  | _ :: _, _ :: _ =>
      Some (<[ LocalResourceKey := localPipelines ]>
              {[ GlobalResourceKey := globalPipelines ]})
  end.

(** A selection is valid when exactly one of its two lists is non-empty. *)
Definition validSelection (BlackList : list string)
    (WhiteList : list ResourceConfig.t) : Prop :=
  (BlackList = [] ∧ WhiteList ≠ []) ∨ (BlackList ≠ [] ∧ WhiteList = []).

(** The validation error of a selection, from the emptiness of its lists. *)
Definition selectionError (BlackList : list string)
    (WhiteList : list ResourceConfig.t) : option error :=
  match BlackList, WhiteList with
  | [], [] => Some MissingSelection
  | _ :: _, _ :: _ => Some ConflictingSelection
  | _, _ => None
  end.

(** A definition is enabled by a selection. *)
Definition enabled (BlackList : list string)
    (WhiteList : list ResourceConfig.t) (v : PipelineConfig.t) : Prop :=
  match WhiteList with
  | [] => PipelineConfig.Name v ∉ BlackList
  | _ :: _ =>
      ∃ c, c ∈ WhiteList ∧ ResourceConfig.Resource c = PipelineConfig.Name v
  end.

(** A name that no definition of the registry carries, in either scope. *)
Definition unknownName (g : Globals) (name : string) : Prop :=
  ∀ s v, v ∈ definitionsForScope g s → PipelineConfig.Name v ≠ name.

(** Two resolutions in a row, as a caller that resolves twice. *)
Definition resolveTwice (meshsyncConfig : MeshsyncConfig.t)
  : M ((option MeshsyncConfig.t * option error)
       * (option MeshsyncConfig.t * option error)) :=
  first ← resolvePipelines meshsyncConfig;
  second ← resolvePipelines meshsyncConfig;
  mret (first, second).

(** Resolved pipelines read back as an allow-list: one entry per pipeline,
    with its name and its events. *)
Definition asWhiteList (ps : PipelineConfigs) : list ResourceConfig.t :=
  (λ p, ResourceConfig.mk (PipelineConfig.Name p) (PipelineConfig.Events p))
    <$> ps.

(** The pipelines of a scope picked by a choice of events per name. *)
Definition pickPipelines (events : string → option (list string))
    (vs : PipelineConfigs) : PipelineConfigs :=
  omap (λ v, (λ e, withEvents e v) <$> events (PipelineConfig.Name v)) vs.

(** The registry and selection of the spec's scenarios. *)
Definition scenarioRegistry : gmap string PipelineConfigs :=
  <[ LocalResourceKey := [PipelineConfig.mk "Service" ["ADD"]] ]>
    {[ GlobalResourceKey := [PipelineConfig.mk "Pod" ["ADD"; "DELETE"]] ]}.

Definition scenarioGlobals (events : list string) : Globals :=
  {| Pipelines := scenarioRegistry; DefaultEvents := events |}.

(** ** The loops *)

Lemma bind_run {A B} (m : M A) (k : A → M B) g x g' :
  m g = Some (x, g') → (m ≫= k) g = k x g'.
Proof. intros H. unfold mbind, M_bind. by rewrite H. Qed.

Lemma IndexFunc_from_find {E} (f : E → bool) s : ∀ i,
  match List.find f s with
  | None => IndexFunc_from i s f = (-1)%Z
  | Some c => ∃ k : nat, IndexFunc_from i s f = (i + Z.of_nat k)%Z ∧ s !! k = Some c
  end.
Proof.
  induction s as [|x s IH]; intros i; simpl; [done|].
  destruct (f x).
  - exists 0%nat. split; [lia | done].
  - specialize (IH (i + 1)%Z). destruct (List.find f s) as [c|]; [|done].
    destruct IH as (k & Hk & Hc). exists (S k). split; [lia | done].
Qed.

Lemma index_IndexFunc {E} (f : E → bool) (s : list E) g :
  match List.find f s with
  | None => IndexFunc s f = (-1)%Z
  | Some c => IndexFunc s f ≠ (-1)%Z ∧ index s (IndexFunc s f) g = Some (c, g)
  end.
Proof.
  unfold IndexFunc. pose proof (IndexFunc_from_find f s 0%Z) as H.
  destruct (List.find f s) as [c|]; [|done].
  destruct H as (k & -> & Hc). split; [lia|].
  unfold index. destruct (Z.ltb_spec (0 + Z.of_nat k) 0); [lia|].
  replace (Z.to_nat (0 + Z.of_nat k)) with k by lia. by rewrite Hc.
Qed.

Lemma find_eqb_None (l : list string) name :
  List.find (λ c, String.eqb c name) l = None ↔ name ∉ l.
Proof.
  induction l as [|x l IH]; simpl.
  - split; [intros _; apply not_elem_of_nil | done].
  - destruct (String.eqb_spec x name) as [->|Hne].
    + split; [done | intros []; left].
    + rewrite IH, not_elem_of_cons. split; [by intros ? | by intros [_ ?]].
Qed.

Lemma firstMatch_Some wl name c :
  firstMatch wl name = Some c → c ∈ wl ∧ ResourceConfig.Resource c = name.
Proof.
  unfold firstMatch. intros H. apply List.find_some in H as [Hin Heq].
  split; [by apply list_elem_of_In | by apply String.eqb_eq].
Qed.

Lemma firstMatch_None wl name :
  firstMatch wl name = None ↔ ∀ c, c ∈ wl → ResourceConfig.Resource c ≠ name.
Proof.
  unfold firstMatch. split.
  - intros H c Hc Heq. apply list_elem_of_In in Hc.
    pose proof (List.find_none _ _ H c Hc) as Hf. simpl in Hf.
    apply String.eqb_neq in Hf. done.
  - intros H. destruct (List.find _ wl) as [c|] eqn:Hf; [|done].
    apply List.find_some in Hf as [Hin Heq].
    apply String.eqb_eq in Heq. apply list_elem_of_In in Hin. naive_solver.
Qed.

Lemma whiteListStep_run c v acc g :
  whiteListStep c v acc g
  = Some (acc ++ option_list (allowed (MeshsyncConfig.WhiteList c) v), g).
Proof.
  unfold whiteListStep, allowed, firstMatch.
  pose proof (index_IndexFunc
    (λ c0, String.eqb (ResourceConfig.Resource c0) (PipelineConfig.Name v))
    (MeshsyncConfig.WhiteList c) g) as H.
  destruct (List.find _ _) as [e|]; simpl.
  - destruct H as [Hne Hidx]. apply Z.eqb_neq in Hne. rewrite Hne.
    by rewrite (bind_run _ _ _ _ _ Hidx).
  - rewrite H. simpl. by rewrite app_nil_r.
Qed.

Lemma forRange_whiteList c vs : ∀ acc g,
  forRange vs (whiteListStep c) acc g
  = Some (acc ++ allowedPipelines (MeshsyncConfig.WhiteList c) vs, g).
Proof.
  induction vs as [|v vs IH]; intros acc g; simpl.
  - by rewrite app_nil_r.
  - rewrite (bind_run _ _ _ _ _ (whiteListStep_run c v acc g)), IH.
    unfold allowedPipelines. simpl.
    destruct (allowed _ v); simpl; by rewrite <- ?app_assoc, ?app_nil_r.
Qed.

Lemma blackListStep_run c v acc g :
  blackListStep c v acc g
  = Some (acc ++ (if decide (PipelineConfig.Name v ∉ MeshsyncConfig.BlackList c)
                  then [withEvents (DefaultEvents g) v] else []), g).
Proof.
  unfold blackListStep.
  pose proof (index_IndexFunc (λ c0, String.eqb c0 (PipelineConfig.Name v))
    (MeshsyncConfig.BlackList c) g) as H.
  pose proof (find_eqb_None (MeshsyncConfig.BlackList c) (PipelineConfig.Name v)) as Hn.
  destruct (List.find _ _) as [e|].
  - destruct H as [Hne _]. apply Z.eqb_neq in Hne. rewrite Hne.
    destruct (decide _) as [Hd|_]; [|by rewrite app_nil_r].
    apply Hn in Hd. done.
  - rewrite H. simpl. destruct (decide _) as [_|Hd]; [done|].
    exfalso. apply Hd, Hn. done.
Qed.

Lemma forRange_blackList c vs : ∀ acc g,
  forRange vs (blackListStep c) acc g
  = Some (acc ++ notDeniedPipelines (MeshsyncConfig.BlackList c)
                   (DefaultEvents g) vs, g).
Proof.
  induction vs as [|v vs IH]; intros acc g; simpl.
  - by rewrite app_nil_r.
  - rewrite (bind_run _ _ _ _ _ (blackListStep_run c v acc g)), IH.
    unfold notDeniedPipelines. rewrite filter_cons.
    destruct (decide _); simpl; by rewrite <- ?app_assoc, ?app_nil_r.
Qed.

(** ** The resolution as a whole *)

Lemma storeGlobal_run c l g :
  MeshsyncConfig.Pipelines c = None →
  storeGlobal c l g = Some (setPipelines c (pipelinesMap l []), g).
Proof.
  intros Hc. unfold storeGlobal. destruct l as [|p l]; simpl.
  - destruct c; simpl in *; by subst.
  - unfold mret, M_ret, setPipelines. simpl. by rewrite insert_empty.
Qed.

Lemma storeLocal_run c gl lo g :
  MeshsyncConfig.Pipelines c = None →
  storeLocal (setPipelines c (pipelinesMap gl [])) lo g
  = Some (setPipelines c (pipelinesMap gl lo), g).
Proof.
  intros Hc. unfold storeLocal.
  destruct lo as [|q lo], gl as [|p gl]; simpl; done.
Qed.

Lemma resolvePipelines_run bl wl g :
  resolvePipelines (selection bl wl) g
  = Some (match selectionError bl wl with
          | Some e => (None, Some e)
          | None =>
              (Some (MeshsyncConfig.mk bl
                       (pipelinesMap (resolvedPipelines bl wl g ScopeGlobal)
                                     (resolvedPipelines bl wl g ScopeLocal))
                       wl), None)
          end, g).
Proof.
  unfold resolvePipelines, resolvedPipelines, definitionsForScope.
  destruct bl as [|b bl], wl as [|w wl]; simpl; try done.
  - rewrite (bind_run _ _ _ _ _ (eq_refl : readPipelines GlobalResourceKey g = _)).
    rewrite (bind_run _ _ _ _ _ (forRange_whiteList _ _ [] g)). simpl.
    rewrite (bind_run _ _ _ _ _ (storeGlobal_run (selection [] (w :: wl)) _ g eq_refl)).
    rewrite (bind_run _ _ _ _ _ (eq_refl : readPipelines LocalResourceKey g = _)).
    rewrite (bind_run _ _ _ _ _ (forRange_whiteList _ _ [] g)). simpl.
    rewrite (bind_run _ _ _ _ _ (storeLocal_run (selection [] (w :: wl)) _ _ g eq_refl)).
    done.
  - rewrite (bind_run _ _ _ _ _ (eq_refl : readPipelines GlobalResourceKey g = _)).
    rewrite (bind_run _ _ _ _ _ (forRange_blackList _ _ [] g)). simpl.
    rewrite (bind_run _ _ _ _ _ (storeGlobal_run (selection (b :: bl) []) _ g eq_refl)).
    rewrite (bind_run _ _ _ _ _ (eq_refl : readPipelines LocalResourceKey g = _)).
    rewrite (bind_run _ _ _ _ _ (forRange_blackList _ _ [] g)). simpl.
    rewrite (bind_run _ _ _ _ _ (storeLocal_run (selection (b :: bl) []) _ _ g eq_refl)).
    done.
Qed.

Lemma scopeKey_distinct : GlobalResourceKey ≠ LocalResourceKey.
Proof. done. Qed.

Lemma pipelinesAt_scope bl wl gl lo s :
  pipelinesAt (MeshsyncConfig.mk bl (pipelinesMap gl lo) wl) (scopeKey s)
  = match s with ScopeGlobal => gl | ScopeLocal => lo end.
Proof.
  unfold pipelinesAt. simpl.
  destruct gl as [|p gl], lo as [|q lo], s; simpl; try done.
Qed.

Lemma pipelinesMap_lookup gl lo m key l :
  pipelinesMap gl lo = Some m → m !! key = Some l →
  (key = GlobalResourceKey ∧ l = gl ∧ gl ≠ [])
  ∨ (key = LocalResourceKey ∧ l = lo ∧ lo ≠ []).
Proof.
  pose proof scopeKey_distinct as Hd.
  destruct gl as [|p gl], lo as [|q lo]; simpl; intros Hm Hl;
    simplify_eq; revert Hl.
  - rewrite lookup_singleton_Some. intros [<- <-]. by right.
  - rewrite lookup_singleton_Some. intros [<- <-]. by left.
  - rewrite lookup_insert_Some, lookup_singleton_Some.
    intros [[<- <-]|[_ [<- <-]]]; [by right | by left].
Qed.

Lemma keyPresent_pipelinesMap bl wl gl lo key :
  keyPresent (MeshsyncConfig.mk bl (pipelinesMap gl lo) wl) key
  ↔ (key = GlobalResourceKey ∧ gl ≠ []) ∨ (key = LocalResourceKey ∧ lo ≠ []).
Proof.
  unfold keyPresent. simpl. split.
  - intros (m & Hm & l & Hl).
    destruct (pipelinesMap_lookup _ _ _ _ _ Hm Hl) as [(-> & _ & ?)|(-> & _ & ?)];
      [by left | by right].
  - pose proof scopeKey_distinct as Hd.
    intros [[-> Hne]|[-> Hne]].
    + destruct gl as [|p gl]; [done|]. destruct lo as [|q lo]; simpl.
      * eexists. split; [done|]. rewrite lookup_singleton_eq. by eexists.
      * eexists. split; [done|]. rewrite lookup_insert_ne by done.
        rewrite lookup_singleton_eq. by eexists.
    + destruct lo as [|q lo]; [done|]. destruct gl as [|p gl]; simpl.
      * eexists. split; [done|]. rewrite lookup_singleton_eq. by eexists.
      * eexists. split; [done|]. rewrite lookup_insert_eq. by eexists.
Qed.

Lemma selectionError_valid bl wl :
  validSelection bl wl ↔ selectionError bl wl = None.
Proof.
  unfold validSelection.
  destruct bl, wl; simpl; split; try done;
    try (intros [[? ?]|[? ?]]; done); intros _; [left | right]; done.
Qed.

Lemma resolvePipelines_valid bl wl g :
  validSelection bl wl →
  resolvePipelines (selection bl wl) g
  = Some ((Some (MeshsyncConfig.mk bl
                   (pipelinesMap (resolvedPipelines bl wl g ScopeGlobal)
                                 (resolvedPipelines bl wl g ScopeLocal))
                   wl), None), g).
Proof.
  intros Hv. apply selectionError_valid in Hv.
  by rewrite resolvePipelines_run, Hv.
Qed.

Section Unmarshal_facts.

Variable UnmarshalStrings : string → error + list string.
Variable UnmarshalResourceConfigs : string → error + list ResourceConfig.t.

(** Once both fields are parsed, the function goes on as
    [resolvePipelines] on the parsed selection. *)
Lemma PopulateConfigsFromMap_parsed data bl wl :
  unmarshalField UnmarshalStrings data "blacklist" = inr bl →
  unmarshalField UnmarshalResourceConfigs data "whitelist" = inr wl →
  PopulateConfigsFromMap UnmarshalStrings UnmarshalResourceConfigs data
  = resolvePipelines (selection bl wl).
Proof. intros Hb Hw. unfold PopulateConfigsFromMap. by rewrite Hb, Hw. Qed.

End Unmarshal_facts.

(** ** Validation of the selection *)

(** C1: with both lists empty the resolution fails with MissingSelection, with
    both non-empty it fails with ConflictingSelection; in both cases the
    returned configuration is nil. *)
Theorem PopulateConfigsFromMap_mutual_exclusion
    (UnmarshalStrings : string → error + list string)
    (UnmarshalResourceConfigs : string → error + list ResourceConfig.t)
    (data : gmap string string) (bl : list string)
    (wl : list ResourceConfig.t) (g : Globals) :
  unmarshalField UnmarshalStrings data "blacklist" = inr bl →
  unmarshalField UnmarshalResourceConfigs data "whitelist" = inr wl →
  (bl = [] → wl = [] →
   PopulateConfigsFromMap UnmarshalStrings UnmarshalResourceConfigs data g
   = Some ((None, Some MissingSelection), g))
  ∧ (bl ≠ [] → wl ≠ [] →
     PopulateConfigsFromMap UnmarshalStrings UnmarshalResourceConfigs data g
     = Some ((None, Some ConflictingSelection), g)).
Proof.
  intros Hb Hw.
  rewrite (PopulateConfigsFromMap_parsed _ _ _ _ _ Hb Hw), resolvePipelines_run.
  split.
  - by intros -> ->.
  - intros Hbl Hwl. by destruct bl, wl.
Qed.

Lemma PopulateConfigsFromMap_mutual_exclusion_witness :
  PopulateConfigsFromMap (λ _, inr ["Pod"])
    (λ _, inr [ResourceConfig.mk "Service" ["ADD"]])
    (<["whitelist" := "w"]> {["blacklist" := "b"]}) (scenarioGlobals ["ADD"])
  = Some ((None, Some ConflictingSelection), scenarioGlobals ["ADD"]).
Proof.
  refine (proj2 (PopulateConfigsFromMap_mutual_exclusion
    (λ _, inr ["Pod"]) (λ _, inr [ResourceConfig.mk "Service" ["ADD"]])
    (<["whitelist" := "w"]> {["blacklist" := "b"]})
    ["Pod"] [ResourceConfig.mk "Service" ["ADD"]] (scenarioGlobals ["ADD"])
    _ _) _ _); [reflexivity | reflexivity | discriminate | discriminate].
Defined.

(** C10: whenever [PopulateConfigsFromMap] returns a non-nil error, the
    returned configuration pointer is nil; and the function always returns
    (it never panics), whatever the input map holds. *)
Theorem PopulateConfigsFromMap_error_nil_config
    (UnmarshalStrings : string → error + list string)
    (UnmarshalResourceConfigs : string → error + list ResourceConfig.t)
    (data : gmap string string) (g : Globals) :
  ∃ r,
    PopulateConfigsFromMap UnmarshalStrings UnmarshalResourceConfigs data g
    = Some (r, g)
    ∧ (r.2 ≠ None → r.1 = None).
Proof.
  unfold PopulateConfigsFromMap.
  destruct (unmarshalField UnmarshalStrings data "blacklist") as [e|bl].
  { eexists. split; [reflexivity | done]. }
  destruct (unmarshalField UnmarshalResourceConfigs data "whitelist") as [e|wl].
  { eexists. split; [reflexivity | done]. }
  change (MeshsyncConfig.mk _ _ _) with (selection bl wl).
  rewrite resolvePipelines_run. eexists. split; [reflexivity|].
  by destruct (selectionError bl wl).
Qed.

Lemma PopulateConfigsFromMap_error_nil_config_witness :
  ∃ r,
    PopulateConfigsFromMap (λ _, inl (errors_New "unexpected end of JSON input"))
      (λ _, inr []) {["blacklist" := "["]} (scenarioGlobals ["ADD"])
    = Some (r, scenarioGlobals ["ADD"])
    ∧ (r.2 ≠ None → r.1 = None).
Proof.
  exact (PopulateConfigsFromMap_error_nil_config
           (λ _, inl (errors_New "unexpected end of JSON input"))
           (λ _, inr []) {["blacklist" := "["]} (scenarioGlobals ["ADD"])).
Defined.

(** ** Frame and determinism *)

(** C7: a resolution leaves the package-level state as it found it, so the
    registry's definitions (names and event sets, in order) are unchanged, and
    the returned configuration holds the selection's two lists as they were
    given. *)
Theorem resolvePipelines_no_mutation
    (bl : list string) (wl : list ResourceConfig.t) (g : Globals) :
  ∃ r g',
    resolvePipelines (selection bl wl) g = Some (r, g')
    ∧ g' = g
    ∧ (∀ s, definitionsForScope g' s = definitionsForScope g s)
    ∧ (∀ c, r.1 = Some c →
         MeshsyncConfig.BlackList c = bl ∧ MeshsyncConfig.WhiteList c = wl).
Proof.
  rewrite resolvePipelines_run. eexists _, _. split; [reflexivity|].
  split; [done|]. split; [done|].
  intros c. destruct (selectionError bl wl); simpl; [done|].
  by intros [= <-].
Qed.

(** C9: two resolutions in a row, of the same selection against the same
    registry, give the same result, the order of the pipelines included. *)
Theorem resolveTwice_same_result
    (bl : list string) (wl : list ResourceConfig.t) (g : Globals) :
  ∃ r, resolveTwice (selection bl wl) g = Some ((r, r), g).
Proof.
  unfold resolveTwice.
  rewrite (bind_run _ _ _ _ _ (resolvePipelines_run bl wl g)).
  rewrite (bind_run _ _ _ _ _ (resolvePipelines_run bl wl g)).
  by eexists.
Qed.

(** ** The allow-list path *)

Lemma firstMatch_split wl name e :
  firstMatch wl name = Some e
  ↔ ∃ pre post,
      wl = pre ++ e :: post
      ∧ ResourceConfig.Resource e = name
      ∧ ∀ e', e' ∈ pre → ResourceConfig.Resource e' ≠ name.
Proof.
  unfold firstMatch. induction wl as [|x wl IH]; simpl.
  - split; [done|]. intros (pre & post & Hwl & _). by destruct pre.
  - destruct (String.eqb_spec (ResourceConfig.Resource x) name) as [Hx|Hx].
    + split.
      * intros [= <-]. exists [], wl. split; [done|]. split; [done|].
        intros e' He'. by apply elem_of_nil in He'.
      * intros (pre & post & Hwl & He & Hpre). destruct pre as [|y pre].
        { simpl in Hwl. by injection Hwl as ->. }
        simpl in Hwl. injection Hwl as <- _.
        exfalso. apply (Hpre x); [left | done].
    + rewrite IH. split.
      * intros (pre & post & -> & He & Hpre). exists (x :: pre), post.
        split; [done|]. split; [done|].
        intros e' [->|He']%elem_of_cons; [done | by apply Hpre].
      * intros (pre & post & Hwl & He & Hpre). destruct pre as [|y pre].
        { simpl in Hwl. injection Hwl as -> _. done. }
        simpl in Hwl. injection Hwl as <- ->. exists pre, post.
        split; [done|]. split; [done|].
        intros e' He'. apply Hpre. by right.
Qed.

Lemma elem_of_allowedPipelines wl vs p :
  p ∈ allowedPipelines wl vs
  ↔ ∃ v e, v ∈ vs ∧ firstMatch wl (PipelineConfig.Name v) = Some e
           ∧ p = withEvents (ResourceConfig.Events e) v.
Proof.
  unfold allowedPipelines, allowed. rewrite list_elem_of_omap. split.
  - intros (v & Hv & Hp). exists v.
    destruct (firstMatch wl (PipelineConfig.Name v)) as [e|]; [|done].
    exists e. simpl in Hp. by injection Hp as <-.
  - intros (v & e & Hv & He & ->). exists v. by rewrite He.
Qed.

Lemma resolved_pipelinesAt bl wl g s :
  pipelinesAt (MeshsyncConfig.mk bl
                 (pipelinesMap (resolvedPipelines bl wl g ScopeGlobal)
                               (resolvedPipelines bl wl g ScopeLocal)) wl)
    (scopeKey s)
  = resolvedPipelines bl wl g s.
Proof. rewrite pipelinesAt_scope. by destruct s. Qed.

(** C2: with a non-empty allow-list, for each scope, a definition of the
    registry appears in the scope's output exactly when some entry of the
    allow-list carries its name; every pipeline of the output is a registry
    definition with the event set of the first entry carrying its name (the
    allow-list is kept as given, duplicates included), and a definition that
    no entry names is not in the output at all. *)
Theorem resolvePipelines_allow_list
    (wl : list ResourceConfig.t) (g : Globals) (s : Scope) :
  wl ≠ [] →
  ∃ c,
    resolvePipelines (selection [] wl) g = Some ((Some c, None), g)
    ∧ MeshsyncConfig.WhiteList c = wl
    ∧ (∀ v, v ∈ definitionsForScope g s →
         (∃ p, p ∈ pipelinesAt c (scopeKey s)
               ∧ PipelineConfig.Name p = PipelineConfig.Name v)
         ↔ (∃ e, e ∈ wl ∧ ResourceConfig.Resource e = PipelineConfig.Name v))
    ∧ (∀ p, p ∈ pipelinesAt c (scopeKey s) →
         ∃ v pre e post,
           v ∈ definitionsForScope g s
           ∧ wl = pre ++ e :: post
           ∧ (∀ e', e' ∈ pre →
                ResourceConfig.Resource e' ≠ PipelineConfig.Name v)
           ∧ ResourceConfig.Resource e = PipelineConfig.Name v
           ∧ p = withEvents (ResourceConfig.Events e) v)
    ∧ (∀ v pre e post,
         v ∈ definitionsForScope g s →
         wl = pre ++ e :: post →
         (∀ e', e' ∈ pre → ResourceConfig.Resource e' ≠ PipelineConfig.Name v) →
         ResourceConfig.Resource e = PipelineConfig.Name v →
         withEvents (ResourceConfig.Events e) v ∈ pipelinesAt c (scopeKey s))
    ∧ (∀ v, v ∈ definitionsForScope g s →
         (∀ e, e ∈ wl → ResourceConfig.Resource e ≠ PipelineConfig.Name v) →
         ∀ p, p ∈ pipelinesAt c (scopeKey s) →
              PipelineConfig.Name p ≠ PipelineConfig.Name v).
Proof.
  intros Hwl.
  assert (validSelection [] wl) as Hv by (by left).
  eexists. split; [by apply resolvePipelines_valid|].
  split; [done|]. rewrite resolved_pipelinesAt.
  assert (resolvedPipelines [] wl g s
          = allowedPipelines wl (definitionsForScope g s)) as ->.
  { unfold resolvedPipelines. by destruct wl. }
  assert (∀ p, p ∈ allowedPipelines wl (definitionsForScope g s) →
            ∃ e, e ∈ wl ∧ ResourceConfig.Resource e = PipelineConfig.Name p)
    as Hnamed.
  { intros p (v & e & _ & He & ->)%elem_of_allowedPipelines.
    apply firstMatch_Some in He as [? ?]. by exists e. }
  split; [|split; [|split]].
  - intros v Hin. split.
    + intros (p & Hp & Hname). rewrite <- Hname. by apply Hnamed.
    + intros (e & He & Hname).
      destruct (firstMatch wl (PipelineConfig.Name v)) as [e1|] eqn:H1.
      * exists (withEvents (ResourceConfig.Events e1) v). split; [|done].
        apply elem_of_allowedPipelines. by exists v, e1.
      * exfalso. by apply (proj1 (firstMatch_None _ _) H1 e).
  - intros p (v & e & Hin & He & ->)%elem_of_allowedPipelines.
    apply firstMatch_split in He as (pre & post & ? & ? & ?).
    by exists v, pre, e, post.
  - intros v pre e post Hin Hsplit Hpre He.
    apply elem_of_allowedPipelines. exists v, e. split; [done|]. split; [|done].
    apply firstMatch_split. by exists pre, post.
  - intros v Hin Hnone p Hp Hname.
    destruct (Hnamed p Hp) as (e & He & Hres).
    apply (Hnone e He). by rewrite Hres.
Qed.

Lemma resolvePipelines_allow_list_witness :
  ∃ c,
    resolvePipelines
      (selection [] [ResourceConfig.mk "Pod" ["UPDATE"];
                     ResourceConfig.mk "Pod" ["ADD"]])
      (scenarioGlobals ["ADD"])
    = Some ((Some c, None), scenarioGlobals ["ADD"])
    ∧ pipelinesAt c GlobalResourceKey = [PipelineConfig.mk "Pod" ["UPDATE"]].
Proof.
  destruct (resolvePipelines_allow_list
              [ResourceConfig.mk "Pod" ["UPDATE"]; ResourceConfig.mk "Pod" ["ADD"]]
              (scenarioGlobals ["ADD"]) ScopeGlobal ltac:(discriminate))
    as (c & Hrun & _).
  exists c. split; [exact Hrun|].
  vm_compute in Hrun. injection Hrun as <-. reflexivity.
Defined.

(** ** The deny-list path *)

Lemma elem_of_notDeniedPipelines bl events vs p :
  p ∈ notDeniedPipelines bl events vs
  ↔ ∃ v, v ∈ vs ∧ (PipelineConfig.Name v ∉ bl) ∧ p = withEvents events v.
Proof.
  unfold notDeniedPipelines. rewrite list_elem_of_fmap. split.
  - intros (v & -> & [Hn Hv]%list_elem_of_filter). by exists v.
  - intros (v & Hv & Hn & ->). exists v. split; [done|].
    by apply list_elem_of_filter.
Qed.

Lemma count_notDeniedPipelines bl events name vs :
  name ∉ bl →
  length (filter (λ p, PipelineConfig.Name p = name)
            (notDeniedPipelines bl events vs))
  = length (filter (λ v, PipelineConfig.Name v = name) vs).
Proof.
  intros Hname. unfold notDeniedPipelines.
  induction vs as [|v vs IH]; [done|].
  rewrite !filter_cons. destruct (decide (PipelineConfig.Name v ∉ bl)) as [Hv|Hv].
  - rewrite fmap_cons, filter_cons. simpl.
    destruct (decide (PipelineConfig.Name v = name)); simpl; by rewrite IH.
  - destruct (decide (PipelineConfig.Name v = name)) as [Heq|Hne]; [|done].
    by rewrite Heq in Hv.
Qed.

Lemma filter_name_absent (vs : PipelineConfigs) name :
  name ∉ PipelineConfig.Name <$> vs →
  filter (λ v, PipelineConfig.Name v = name) vs = [].
Proof.
  induction vs as [|x vs IH]; [done|].
  rewrite fmap_cons, not_elem_of_cons, filter_cons. intros [Hx Hvs].
  destruct (decide (PipelineConfig.Name x = name)); [done | by apply IH].
Qed.

Lemma count_unique_name (vs : PipelineConfigs) v :
  NoDup (PipelineConfig.Name <$> vs) → v ∈ vs →
  length (filter (λ v', PipelineConfig.Name v' = PipelineConfig.Name v) vs) = 1.
Proof.
  induction vs as [|x vs IH]; intros Hnd Hv.
  - by apply elem_of_nil in Hv.
  - rewrite fmap_cons in Hnd. apply NoDup_cons in Hnd as [Hx Hnd].
    rewrite filter_cons.
    destruct (decide (PipelineConfig.Name x = PipelineConfig.Name v)) as [Heq|Hne].
    + simpl. rewrite filter_name_absent; [done|]. by rewrite <- Heq.
    + apply elem_of_cons in Hv as [->|Hv]; [done|]. by apply IH.
Qed.

Lemma resolvedPipelines_deny bl g s :
  resolvedPipelines bl [] g s
  = notDeniedPipelines bl (DefaultEvents g) (definitionsForScope g s).
Proof. done. Qed.

(** C3: with a non-empty deny-list, for each scope, no pipeline of the output
    carries a denied name, and a definition of the registry whose name is not
    denied appears in its scope's output exactly once (as often as the
    registry lists its name, which is once when names are unique within the
    scope, as the data model requires). *)
Theorem resolvePipelines_deny_list
    (bl : list string) (g : Globals) (s : Scope) :
  bl ≠ [] →
  ∃ c,
    resolvePipelines (selection bl []) g = Some ((Some c, None), g)
    ∧ (∀ p, p ∈ pipelinesAt c (scopeKey s) → PipelineConfig.Name p ∉ bl)
    ∧ (∀ name, name ∉ bl →
         length (filter (λ p, PipelineConfig.Name p = name)
                   (pipelinesAt c (scopeKey s)))
         = length (filter (λ v, PipelineConfig.Name v = name)
                     (definitionsForScope g s)))
    ∧ (NoDup (PipelineConfig.Name <$> definitionsForScope g s) →
       ∀ v, v ∈ definitionsForScope g s → PipelineConfig.Name v ∉ bl →
         length (filter (λ p, PipelineConfig.Name p = PipelineConfig.Name v)
                   (pipelinesAt c (scopeKey s))) = 1).
Proof.
  intros Hbl.
  assert (validSelection bl []) as Hv by (by right).
  eexists. split; [by apply resolvePipelines_valid|].
  rewrite resolved_pipelinesAt, resolvedPipelines_deny.
  split; [|split].
  - by intros p (v & _ & Hn & ->)%elem_of_notDeniedPipelines.
  - intros name Hname. by apply count_notDeniedPipelines.
  - intros Hnd v Hin Hname.
    rewrite count_notDeniedPipelines by done. by apply count_unique_name.
Qed.

Lemma resolvePipelines_deny_list_witness :
  ∃ c,
    resolvePipelines (selection ["Pod"] []) (scenarioGlobals ["ADD"])
    = Some ((Some c, None), scenarioGlobals ["ADD"])
    ∧ length (filter (λ p, PipelineConfig.Name p = "Service")
                (pipelinesAt c (scopeKey ScopeLocal))) = 1.
Proof.
  destruct (resolvePipelines_deny_list ["Pod"] (scenarioGlobals ["ADD"])
              ScopeLocal ltac:(discriminate))
    as (c & Hrun & _ & _ & Honce).
  exists c. split; [exact Hrun|].
  apply (Honce ltac:(vm_compute; repeat constructor; set_solver)
           (PipelineConfig.mk "Service" ["ADD"])).
  - vm_compute. left.
  - intros Hin. apply list_elem_of_singleton in Hin. discriminate.
Defined.

Lemma scenario_deny_Pod events :
  resolvePipelines (selection ["Pod"] []) (scenarioGlobals events)
  = Some ((Some (MeshsyncConfig.mk ["Pod"]
                   (Some {[ LocalResourceKey :=
                              [PipelineConfig.mk "Service" events] ]})
                   []), None),
          scenarioGlobals events).
Proof. rewrite resolvePipelines_valid by (by right). reflexivity. Qed.

Lemma scenario_deny_Service events :
  resolvePipelines (selection ["Service"] []) (scenarioGlobals events)
  = Some ((Some (MeshsyncConfig.mk ["Service"]
                   (Some {[ GlobalResourceKey :=
                              [PipelineConfig.mk "Pod" events] ]})
                   []), None),
          scenarioGlobals events).
Proof. rewrite resolvePipelines_valid by (by right). reflexivity. Qed.

(** C4, as the code has it: in the deny-list path every pipeline of the output
    is a registry definition whose event set is replaced by the package-level
    [DefaultEvents], whatever event set the definition carries in the
    registry; in the scenario (global Pod with ADD, DELETE; local Service with
    ADD; deny-list Pod) the output is exactly the local key with Service
    carrying [DefaultEvents], and the global key is absent. *)
Theorem resolvePipelines_deny_list_default_events :
  (∀ (bl : list string) (g : Globals),
     bl ≠ [] →
     ∃ c,
       resolvePipelines (selection bl []) g = Some ((Some c, None), g)
       ∧ ∀ s p, p ∈ pipelinesAt c (scopeKey s) →
           PipelineConfig.Events p = DefaultEvents g
           ∧ ∃ v, v ∈ definitionsForScope g s
                  ∧ p = withEvents (DefaultEvents g) v)
  ∧ (∀ events : list string,
       resolvePipelines (selection ["Pod"] []) (scenarioGlobals events)
       = Some ((Some (MeshsyncConfig.mk ["Pod"]
                        (Some {[ LocalResourceKey :=
                                   [PipelineConfig.mk "Service" events] ]})
                        []), None),
               scenarioGlobals events)
       ∧ ({[ LocalResourceKey := [PipelineConfig.mk "Service" events] ]}
            : gmap string PipelineConfigs) !! GlobalResourceKey = None).
Proof.
  split.
  - intros bl g Hbl.
    assert (validSelection bl []) as Hv by (by right).
    eexists. split; [by apply resolvePipelines_valid|].
    intros s p. rewrite resolved_pipelinesAt, resolvedPipelines_deny.
    intros (v & Hin & _ & ->)%elem_of_notDeniedPipelines.
    split; [done | by exists v].
  - intros events. split; [apply scenario_deny_Pod | done].
Qed.

Lemma resolvePipelines_deny_list_default_events_witness :
  ∃ c,
    resolvePipelines (selection ["Service"] [])
      (scenarioGlobals ["ADDED"; "MODIFIED"; "DELETED"])
    = Some ((Some c, None), scenarioGlobals ["ADDED"; "MODIFIED"; "DELETED"])
    ∧ ∀ s p, p ∈ pipelinesAt c (scopeKey s) →
        PipelineConfig.Events p = ["ADDED"; "MODIFIED"; "DELETED"].
Proof.
  destruct (proj1 resolvePipelines_deny_list_default_events ["Service"]
              (scenarioGlobals ["ADDED"; "MODIFIED"; "DELETED"])
              ltac:(discriminate)) as (c & Hrun & Hev).
  exists c. split; [exact Hrun|].
  intros s p Hp. exact (proj1 (Hev s p Hp)).
Defined.

(** C4, as the spec words it, fails: on the scenario's registry no value of
    [DefaultEvents] gives every pipeline of a deny-list resolution the event
    set of its own registry definition.  Denying Pod emits Service, denying
    Service emits Pod, both with [DefaultEvents], and the two definitions
    carry different event sets. *)
Lemma deny_list_events_not_the_definitions :
  ¬ ∃ events : list string,
      ∀ (bl : list string) (s : Scope) c p,
        bl ≠ [] →
        resolvePipelines (selection bl []) (scenarioGlobals events)
        = Some ((Some c, None), scenarioGlobals events) →
        p ∈ pipelinesAt c (scopeKey s) →
        ∃ v, v ∈ definitionsForScope (scenarioGlobals events) s
             ∧ PipelineConfig.Name v = PipelineConfig.Name p
             ∧ PipelineConfig.Events p = PipelineConfig.Events v.
Proof.
  intros (events & H).
  destruct (H ["Pod"] ScopeLocal _ (PipelineConfig.mk "Service" events)
              ltac:(discriminate) (scenario_deny_Pod events))
    as (v1 & Hv1 & _ & He1); [left|].
  destruct (H ["Service"] ScopeGlobal _ (PipelineConfig.mk "Pod" events)
              ltac:(discriminate) (scenario_deny_Service events))
    as (v2 & Hv2 & _ & He2); [left|].
  apply list_elem_of_singleton in Hv1, Hv2. subst v1 v2.
  simpl in He1, He2. congruence.
Qed.

(** ** Scope keys of the output *)

Lemma nonempty_elem_of {A} (l : list A) : l ≠ [] ↔ ∃ x, x ∈ l.
Proof.
  destruct l as [|x l].
  - split; [done | intros [x Hx]; by apply elem_of_nil in Hx].
  - split; [intros _; exists x; left | done].
Qed.

Lemma resolvedPipelines_nonempty bl wl g s :
  validSelection bl wl →
  resolvedPipelines bl wl g s ≠ []
  ↔ ∃ v, v ∈ definitionsForScope g s ∧ enabled bl wl v.
Proof.
  intros Hv. rewrite nonempty_elem_of. unfold resolvedPipelines, enabled.
  destruct wl as [|w wl].
  - split.
    + intros (p & (v & Hin & Hn & _)%elem_of_notDeniedPipelines). by exists v.
    + intros (v & Hin & Hn). exists (withEvents (DefaultEvents g) v).
      apply elem_of_notDeniedPipelines. by exists v.
  - split.
    + intros (p & (v & e & Hin & Hm & _)%elem_of_allowedPipelines).
      apply firstMatch_Some in Hm as [He Hr].
      exists v. split; [done | by exists e].
    + intros (v & Hin & e & He & Hr).
      destruct (firstMatch (w :: wl) (PipelineConfig.Name v)) as [e1|] eqn:H1.
      * exists (withEvents (ResourceConfig.Events e1) v).
        apply elem_of_allowedPipelines. by exists v, e1.
      * exfalso. by apply (proj1 (firstMatch_None _ _) H1 e).
Qed.

(** C5: for a valid selection, a key is present in the resolved map exactly
    when it is the key of a scope in which the selection enables at least one
    definition; no key is present with an empty list; and an allow-list that
    names no definition of the registry resolves, without error, to a map
    with no key at all. *)
Theorem resolvePipelines_scope_keys
    (bl : list string) (wl : list ResourceConfig.t) (g : Globals) :
  validSelection bl wl →
  ∃ c,
    resolvePipelines (selection bl wl) g = Some ((Some c, None), g)
    ∧ (∀ key, keyPresent c key
              ↔ ∃ s, key = scopeKey s
                     ∧ ∃ v, v ∈ definitionsForScope g s ∧ enabled bl wl v)
    ∧ (∀ s, keyPresent c (scopeKey s) ↔ pipelinesAt c (scopeKey s) ≠ [])
    ∧ (∀ m key l, MeshsyncConfig.Pipelines c = Some m →
                  m !! key = Some l → l ≠ [])
    ∧ (wl ≠ [] →
       (∀ s v e, v ∈ definitionsForScope g s → e ∈ wl →
                 ResourceConfig.Resource e ≠ PipelineConfig.Name v) →
       ∀ key, ¬ keyPresent c key).
Proof.
  intros Hv. eexists. split; [by apply resolvePipelines_valid|].
  pose proof scopeKey_distinct as Hd.
  assert (∀ key,
    keyPresent
      (MeshsyncConfig.mk bl
         (pipelinesMap (resolvedPipelines bl wl g ScopeGlobal)
                       (resolvedPipelines bl wl g ScopeLocal)) wl) key
    ↔ ∃ s, key = scopeKey s
           ∧ ∃ v, v ∈ definitionsForScope g s ∧ enabled bl wl v) as Hkeys.
  { intros key. rewrite keyPresent_pipelinesMap.
    rewrite !(resolvedPipelines_nonempty _ _ _ _ Hv). split.
    - intros [[-> H]|[-> H]]; [by exists ScopeGlobal | by exists ScopeLocal].
    - intros ([] & -> & H); [by left | by right]. }
  split; [exact Hkeys|]. split; [|split].
  - intros s. rewrite resolved_pipelinesAt, keyPresent_pipelinesMap.
    destruct s; simpl; split; intros H.
    + by destruct H as [[_ H]|[? _]].
    + by left.
    + by destruct H as [[? _]|[_ H]].
    + by right.
  - simpl. intros m key l Hm Hl.
    destruct (pipelinesMap_lookup _ _ _ _ _ Hm Hl) as [(_ & -> & H)|(_ & -> & H)];
      done.
  - intros Hwl Hnone key (s & -> & v & Hin & Hen)%Hkeys.
    unfold enabled in Hen. destruct wl as [|w wl]; [done|].
    destruct Hen as (e & He & Hr). by apply (Hnone s v e).
Qed.

Lemma resolvePipelines_scope_keys_witness :
  ∃ c,
    resolvePipelines (selection [] [ResourceConfig.mk "Unknown" ["ADD"]])
      (scenarioGlobals ["ADD"])
    = Some ((Some c, None), scenarioGlobals ["ADD"])
    ∧ ∀ key, ¬ keyPresent c key.
Proof.
  destruct (resolvePipelines_scope_keys [] [ResourceConfig.mk "Unknown" ["ADD"]]
              (scenarioGlobals ["ADD"]))
    as (c & Hrun & _ & _ & _ & Hnone).
  - left. split; [reflexivity | discriminate].
  - exists c. split; [exact Hrun|]. apply Hnone; [discriminate|].
    intros s v e Hv He. apply list_elem_of_singleton in He. subst e.
    destruct s; apply list_elem_of_singleton in Hv; subst v; discriminate.
Defined.

(** ** Order of the output *)

Lemma allowedPipelines_names wl (vs : PipelineConfigs) :
  PipelineConfig.Name <$> allowedPipelines wl vs
  = PipelineConfig.Name
      <$> filter (λ v, is_Some (firstMatch wl (PipelineConfig.Name v))) vs.
Proof.
  unfold allowedPipelines, allowed.
  induction vs as [|v vs IH]; [done|].
  rewrite filter_cons.
  change (omap ?f (v :: vs))
    with (match f v with Some y => y :: omap f vs | None => omap f vs end).
  destruct (decide (is_Some (firstMatch wl (PipelineConfig.Name v))))
    as [[e He]|Hnone].
  - rewrite He. cbn [fmap option_fmap option_map]. rewrite !fmap_cons.
    f_equal. exact IH.
  - destruct (firstMatch wl (PipelineConfig.Name v)) as [e|]; [|exact IH].
    exfalso. apply Hnone. by eexists.
Qed.

Lemma notDeniedPipelines_names bl events (vs : PipelineConfigs) :
  PipelineConfig.Name <$> notDeniedPipelines bl events vs
  = PipelineConfig.Name <$> filter (λ v, PipelineConfig.Name v ∉ bl) vs.
Proof.
  unfold notDeniedPipelines. rewrite <- list_fmap_compose.
  by apply list_fmap_ext.
Qed.

Lemma resolvedPipelines_follow_registry bl wl g s :
  ∃ kept,
    kept `sublist_of` definitionsForScope g s
    ∧ PipelineConfig.Name <$> resolvedPipelines bl wl g s
      = PipelineConfig.Name <$> kept.
Proof.
  unfold resolvedPipelines. destruct wl as [|w wl].
  - eexists. split; [|apply notDeniedPipelines_names]. apply sublist_filter.
  - eexists. split; [|apply allowedPipelines_names]. apply sublist_filter.
Qed.

Lemma allowedPipelines_firstMatch wl wl' vs :
  (∀ name, firstMatch wl name = firstMatch wl' name) →
  allowedPipelines wl vs = allowedPipelines wl' vs.
Proof.
  intros H.
  assert (∀ v, allowed wl v = allowed wl' v) as Ha.
  { intros v. unfold allowed. by rewrite H. }
  unfold allowedPipelines.
  induction vs as [|v vs IH]; [done|].
  change (omap ?f (v :: vs))
    with (match f v with Some y => y :: omap f vs | None => omap f vs end).
  by rewrite Ha, IH.
Qed.

Lemma notDeniedPipelines_Permutation bl bl' events vs :
  bl ≡ₚ bl' →
  notDeniedPipelines bl events vs = notDeniedPipelines bl' events vs.
Proof.
  intros H. unfold notDeniedPipelines. f_equal.
  apply list_filter_iff. intros v. by rewrite H.
Qed.

Lemma resolvedPipelines_Permutation bl wl bl' wl' g s :
  bl ≡ₚ bl' → wl ≡ₚ wl' →
  (∀ name, firstMatch wl name = firstMatch wl' name) →
  resolvedPipelines bl wl g s = resolvedPipelines bl' wl' g s.
Proof.
  intros Hb Hw Hf. unfold resolvedPipelines.
  destruct wl as [|w wl], wl' as [|w' wl'].
  - by apply notDeniedPipelines_Permutation.
  - by apply Permutation_nil_cons in Hw.
  - symmetry in Hw. by apply Permutation_nil_cons in Hw.
  - by apply allowedPipelines_firstMatch.
Qed.

Lemma validSelection_Permutation bl wl bl' wl' :
  bl ≡ₚ bl' → wl ≡ₚ wl' → validSelection bl wl → validSelection bl' wl'.
Proof.
  intros Hb Hw. unfold validSelection.
  assert (bl = [] ↔ bl' = []) as ->.
  { split; intros ->; [symmetry; by apply Permutation_nil_l
                      | by apply Permutation_nil_r]. }
  assert (wl = [] ↔ wl' = []) as ->.
  { split; intros ->; [symmetry; by apply Permutation_nil_l
                      | by apply Permutation_nil_r]. }
  done.
Qed.

(** C6: for a valid selection, the names of each scope's output are those of
    a sublist of the registry's definitions for the scope, in registry order;
    and a permutation of the deny-list, or a permutation of the allow-list
    that keeps the first entry of every resource name, resolves to the same
    map of pipelines, order included. *)
Theorem resolvePipelines_registry_order
    (bl bl' : list string) (wl wl' : list ResourceConfig.t) (g : Globals) :
  validSelection bl wl →
  bl ≡ₚ bl' → wl ≡ₚ wl' →
  (∀ name, firstMatch wl name = firstMatch wl' name) →
  ∃ c c',
    resolvePipelines (selection bl wl) g = Some ((Some c, None), g)
    ∧ resolvePipelines (selection bl' wl') g = Some ((Some c', None), g)
    ∧ MeshsyncConfig.Pipelines c' = MeshsyncConfig.Pipelines c
    ∧ ∀ s, ∃ kept,
        kept `sublist_of` definitionsForScope g s
        ∧ PipelineConfig.Name <$> pipelinesAt c (scopeKey s)
          = PipelineConfig.Name <$> kept.
Proof.
  intros Hv Hb Hw Hf.
  pose proof (validSelection_Permutation _ _ _ _ Hb Hw Hv) as Hv'.
  eexists _, _. split; [by apply resolvePipelines_valid|].
  split; [by apply resolvePipelines_valid|]. split.
  - simpl.
    by rewrite !(resolvedPipelines_Permutation bl wl bl' wl' g _ Hb Hw Hf).
  - intros s. rewrite resolved_pipelinesAt.
    apply resolvedPipelines_follow_registry.
Qed.

Lemma resolvePipelines_registry_order_witness :
  ∃ c c',
    resolvePipelines
      (selection [] [ResourceConfig.mk "Service" ["ADD"];
                     ResourceConfig.mk "Pod" ["UPDATE"]])
      (scenarioGlobals ["ADD"])
    = Some ((Some c, None), scenarioGlobals ["ADD"])
    ∧ resolvePipelines
        (selection [] [ResourceConfig.mk "Pod" ["UPDATE"];
                       ResourceConfig.mk "Service" ["ADD"]])
        (scenarioGlobals ["ADD"])
      = Some ((Some c', None), scenarioGlobals ["ADD"])
    ∧ MeshsyncConfig.Pipelines c' = MeshsyncConfig.Pipelines c.
Proof.
  destruct (resolvePipelines_registry_order [] []
              [ResourceConfig.mk "Service" ["ADD"]; ResourceConfig.mk "Pod" ["UPDATE"]]
              [ResourceConfig.mk "Pod" ["UPDATE"]; ResourceConfig.mk "Service" ["ADD"]]
              (scenarioGlobals ["ADD"]))
    as (c & c' & Hc & Hc' & Heq & _).
  - left. split; [reflexivity | discriminate].
  - reflexivity.
  - apply perm_swap.
  - intros name. unfold firstMatch. cbn [List.find ResourceConfig.Resource].
    destruct (String.eqb_spec "Service" name) as [<-|H1]; [reflexivity|].
    destruct (String.eqb_spec "Pod" name); reflexivity.
  - by exists c, c'.
Defined.

(** ** Unknown resource names *)

Lemma allowedPipelines_ext wl wl' (vs : PipelineConfigs) :
  (∀ v, v ∈ vs →
        firstMatch wl (PipelineConfig.Name v)
        = firstMatch wl' (PipelineConfig.Name v)) →
  allowedPipelines wl vs = allowedPipelines wl' vs.
Proof.
  unfold allowedPipelines. induction vs as [|v vs IH]; intros H; [done|].
  change (omap ?f (v :: vs))
    with (match f v with Some y => y :: omap f vs | None => omap f vs end).
  assert (allowed wl v = allowed wl' v) as ->.
  { unfold allowed. rewrite (H v); [done | left]. }
  rewrite IH; [done|]. intros v' Hv'. apply H. by right.
Qed.

Lemma notDeniedPipelines_ext bl bl' events (vs : PipelineConfigs) :
  (∀ v, v ∈ vs →
        PipelineConfig.Name v ∈ bl ↔ PipelineConfig.Name v ∈ bl') →
  notDeniedPipelines bl events vs = notDeniedPipelines bl' events vs.
Proof.
  unfold notDeniedPipelines. induction vs as [|v vs IH]; intros H; [done|].
  rewrite !filter_cons.
  assert (fmap (withEvents events)
            (filter (λ v, PipelineConfig.Name v ∉ bl) vs)
          = fmap (withEvents events)
              (filter (λ v, PipelineConfig.Name v ∉ bl') vs)) as IH'.
  { apply IH. intros v' Hv'. apply H. by right. }
  pose proof (H v ltac:(left)) as Hv.
  destruct (decide (PipelineConfig.Name v ∉ bl)) as [Hn|Hn],
           (decide (PipelineConfig.Name v ∉ bl')) as [Hn'|Hn'].
  - rewrite !fmap_cons. by rewrite IH'.
  - exfalso. apply Hn'. intros Hin. by apply Hn, Hv.
  - exfalso. apply Hn. intros Hin. by apply Hn', Hv.
  - exact IH'.
Qed.

Lemma firstMatch_app wl1 wl2 name :
  firstMatch (wl1 ++ wl2) name
  = match firstMatch wl1 name with
    | Some e => Some e
    | None => firstMatch wl2 name
    end.
Proof.
  unfold firstMatch. induction wl1 as [|e wl1 IH]; [done|].
  cbn [app List.find].
  by destruct (String.eqb (ResourceConfig.Resource e) name).
Qed.

Lemma firstMatch_unknown g ues s v :
  Forall (λ e, unknownName g (ResourceConfig.Resource e)) ues →
  v ∈ definitionsForScope g s →
  firstMatch ues (PipelineConfig.Name v) = None.
Proof.
  intros Hu Hv. apply firstMatch_None. intros e He Hr.
  rewrite Forall_forall in Hu. by apply (Hu e He s v Hv).
Qed.

Lemma elem_of_unknown g us s v :
  Forall (unknownName g) us →
  v ∈ definitionsForScope g s →
  PipelineConfig.Name v ∉ us.
Proof.
  intros Hu Hv Hin. rewrite Forall_forall in Hu.
  by apply (Hu _ Hin s v Hv).
Qed.

(** C8: a resolution always returns; its error depends only on which of the
    two lists are empty, and is MissingSelection, ConflictingSelection or
    nil, whether or not the names of the selection are in the registry; and
    names that no definition of the registry carries, added before and after
    a deny-list or an allow-list, leave the resolved pipelines as they were;
    every resolved pipeline carries the name of a registry definition of its
    scope. *)
Theorem resolvePipelines_unknown_names
    (bl us us' : list string) (wl ues ues' : list ResourceConfig.t)
    (g : Globals) :
  Forall (unknownName g) us → Forall (unknownName g) us' →
  Forall (λ e, unknownName g (ResourceConfig.Resource e)) ues →
  Forall (λ e, unknownName g (ResourceConfig.Resource e)) ues' →
  (∃ r,
     resolvePipelines (selection bl wl) g = Some (r, g)
     ∧ r.2 = selectionError bl wl
     ∧ (∀ e, r.2 = Some e → e = MissingSelection ∨ e = ConflictingSelection)
     ∧ (r.2 = None → ∃ c, r.1 = Some c))
  ∧ (bl ≠ [] →
     ∃ c c',
       resolvePipelines (selection bl []) g = Some ((Some c, None), g)
       ∧ resolvePipelines (selection (us ++ bl ++ us') []) g
         = Some ((Some c', None), g)
       ∧ MeshsyncConfig.Pipelines c' = MeshsyncConfig.Pipelines c)
  ∧ (wl ≠ [] →
     ∃ c c',
       resolvePipelines (selection [] wl) g = Some ((Some c, None), g)
       ∧ resolvePipelines (selection [] (ues ++ wl ++ ues')) g
         = Some ((Some c', None), g)
       ∧ MeshsyncConfig.Pipelines c' = MeshsyncConfig.Pipelines c)
  ∧ (∀ c s p,
       resolvePipelines (selection bl wl) g = Some ((Some c, None), g) →
       p ∈ pipelinesAt c (scopeKey s) →
       ∃ v, v ∈ definitionsForScope g s
            ∧ PipelineConfig.Name p = PipelineConfig.Name v).
Proof.
  intros Hus Hus' Hues Hues'. split; [|split; [|split]].
  - rewrite resolvePipelines_run. eexists. split; [reflexivity|].
    destruct bl, wl; simpl; (split; [done|]); split; intros;
      simplify_eq; eauto.
  - intros Hbl.
    assert (us ++ bl ++ us' ≠ []) as Hbl'.
    { destruct us; [|done]. by destruct bl. }
    eexists _, _.
    split; [apply resolvePipelines_valid; by right|].
    split; [apply resolvePipelines_valid; by right|].
    cbn [MeshsyncConfig.Pipelines]. rewrite !resolvedPipelines_deny.
    assert (∀ s, notDeniedPipelines (us ++ bl ++ us') (DefaultEvents g)
                   (definitionsForScope g s)
                 = notDeniedPipelines bl (DefaultEvents g)
                     (definitionsForScope g s)) as Heq.
    { intros s. apply notDeniedPipelines_ext. intros v Hv.
      pose proof (elem_of_unknown g us s v Hus Hv).
      pose proof (elem_of_unknown g us' s v Hus' Hv).
      rewrite !elem_of_app. split; [|by auto].
      by intros [?|[?|?]]. }
    by rewrite !Heq.
  - intros Hwl.
    assert (ues ++ wl ++ ues' ≠ []) as Hwl'.
    { destruct ues; [|done]. by destruct wl. }
    eexists _, _.
    split; [apply resolvePipelines_valid; by left|].
    split; [apply resolvePipelines_valid; by left|].
    cbn [MeshsyncConfig.Pipelines].
    assert (∀ s, resolvedPipelines [] (ues ++ wl ++ ues') g s
                 = resolvedPipelines [] wl g s) as Heq.
    { intros s. unfold resolvedPipelines.
      destruct (ues ++ wl ++ ues') as [|x xs] eqn:Hx; [done|].
      rewrite <- Hx. destruct wl as [|w wl0] eqn:Hw; [done|]. rewrite <- Hw.
      apply allowedPipelines_ext. intros v Hv.
      rewrite !firstMatch_app.
      rewrite (firstMatch_unknown g ues s v Hues Hv).
      rewrite (firstMatch_unknown g ues' s v Hues' Hv).
      by destruct (firstMatch wl (PipelineConfig.Name v)). }
    by rewrite !Heq.
  - intros c s p. rewrite resolvePipelines_run.
    destruct (selectionError bl wl); [done|]. intros [= <-].
    rewrite resolved_pipelinesAt. unfold resolvedPipelines.
    destruct wl as [|w wl0].
    + intros (v & Hv & _ & ->)%elem_of_notDeniedPipelines. by exists v.
    + intros (v & e & Hv & _ & ->)%elem_of_allowedPipelines. by exists v.
Qed.

Lemma resolvePipelines_unknown_names_witness :
  (∃ c c',
     resolvePipelines (selection ["Pod"] []) (scenarioGlobals ["ADD"])
     = Some ((Some c, None), scenarioGlobals ["ADD"])
     ∧ resolvePipelines (selection (["Unknown"] ++ ["Pod"] ++ ["Gateway"]) [])
         (scenarioGlobals ["ADD"])
       = Some ((Some c', None), scenarioGlobals ["ADD"])
     ∧ MeshsyncConfig.Pipelines c' = MeshsyncConfig.Pipelines c)
  ∧ (∃ c c',
       resolvePipelines (selection [] [ResourceConfig.mk "Pod" ["UPDATE"]])
         (scenarioGlobals ["ADD"])
       = Some ((Some c, None), scenarioGlobals ["ADD"])
       ∧ resolvePipelines
           (selection [] ([ResourceConfig.mk "Unknown" ["ADD"]]
                          ++ [ResourceConfig.mk "Pod" ["UPDATE"]]
                          ++ [ResourceConfig.mk "Gateway" ["DELETE"]]))
           (scenarioGlobals ["ADD"])
         = Some ((Some c', None), scenarioGlobals ["ADD"])
       ∧ MeshsyncConfig.Pipelines c' = MeshsyncConfig.Pipelines c).
Proof.
  assert (∀ name, name ≠ "Pod" → name ≠ "Service" →
                  unknownName (scenarioGlobals ["ADD"]) name) as Hunknown.
  { intros name H1 H2 s v Hv.
    destruct s; apply list_elem_of_singleton in Hv; subst v; simpl; congruence. }
  destruct (resolvePipelines_unknown_names
    ["Pod"] ["Unknown"] ["Gateway"]
    [ResourceConfig.mk "Pod" ["UPDATE"]]
    [ResourceConfig.mk "Unknown" ["ADD"]]
    [ResourceConfig.mk "Gateway" ["DELETE"]] (scenarioGlobals ["ADD"])
    ltac:(repeat constructor; apply Hunknown; discriminate)
    ltac:(repeat constructor; apply Hunknown; discriminate)
    ltac:(repeat constructor; apply Hunknown; discriminate)
    ltac:(repeat constructor; apply Hunknown; discriminate))
    as (_ & Hdeny & Hallow & _).
  split; [apply Hdeny | apply Hallow]; discriminate.
Defined.

(** ** The spec's scenarios, run on the model *)

Example scenario_deny_Pod_runs :
  resolvePipelines (selection ["Pod"] []) (scenarioGlobals ["ADD"])
  = Some ((Some (MeshsyncConfig.mk ["Pod"]
                   (Some {[ LocalResourceKey :=
                              [PipelineConfig.mk "Service" ["ADD"]] ]})
                   []), None),
          scenarioGlobals ["ADD"]).
Proof. vm_compute. reflexivity. Qed.

Example scenario_allow_Pod_runs :
  resolvePipelines (selection [] [ResourceConfig.mk "Pod" ["UPDATE"]])
    (scenarioGlobals ["ADD"])
  = Some ((Some (MeshsyncConfig.mk []
                   (Some {[ GlobalResourceKey :=
                              [PipelineConfig.mk "Pod" ["UPDATE"]] ]})
                   [ResourceConfig.mk "Pod" ["UPDATE"]]), None),
          scenarioGlobals ["ADD"]).
Proof. vm_compute. reflexivity. Qed.

Example scenario_allow_Unknown_runs :
  resolvePipelines (selection [] [ResourceConfig.mk "Unknown" ["ADD"]])
    (scenarioGlobals ["ADD"])
  = Some ((Some (MeshsyncConfig.mk [] None
                   [ResourceConfig.mk "Unknown" ["ADD"]]), None),
          scenarioGlobals ["ADD"]).
Proof. vm_compute. reflexivity. Qed.

Example scenario_allow_duplicates_runs :
  resolvePipelines
    (selection [] [ResourceConfig.mk "Service" ["ADD"];
                   ResourceConfig.mk "Pod" ["UPDATE"];
                   ResourceConfig.mk "Pod" ["DELETE"]])
    (scenarioGlobals ["ADD"])
  = Some ((Some (MeshsyncConfig.mk []
                   (Some (<[ LocalResourceKey :=
                               [PipelineConfig.mk "Service" ["ADD"]] ]>
                            {[ GlobalResourceKey :=
                                 [PipelineConfig.mk "Pod" ["UPDATE"]] ]}))
                   [ResourceConfig.mk "Service" ["ADD"];
                    ResourceConfig.mk "Pod" ["UPDATE"];
                    ResourceConfig.mk "Pod" ["DELETE"]]), None),
          scenarioGlobals ["ADD"]).
Proof. vm_compute. reflexivity. Qed.

Example scenario_missing_runs :
  resolvePipelines (selection [] []) (scenarioGlobals ["ADD"])
  = Some ((None, Some MissingSelection), scenarioGlobals ["ADD"]).
Proof. reflexivity. Qed.

Example scenario_deny_Service_other_events_runs :
  resolvePipelines (selection ["Service"] [])
    (scenarioGlobals ["ADDED"; "MODIFIED"; "DELETED"])
  = Some ((Some (MeshsyncConfig.mk ["Service"]
                   (Some {[ GlobalResourceKey :=
                              [PipelineConfig.mk "Pod"
                                 ["ADDED"; "MODIFIED"; "DELETED"]] ]})
                   []), None),
          scenarioGlobals ["ADDED"; "MODIFIED"; "DELETED"]).
Proof. vm_compute. reflexivity. Qed.

(** ** Parsing the two fields of the input map *)

Lemma length_zero_empty (s : string) : String.length s = 0 ↔ s = "".
Proof. destruct s; simpl; split; (done || lia). Qed.

Lemma unmarshalField_lookup {T} (U : string → error + list T)
    (data data' : gmap string string) key :
  data !! key = data' !! key →
  unmarshalField U data key = unmarshalField U data' key.
Proof.
  intros H. unfold unmarshalField. rewrite !lookup_total_alt, H. done.
Qed.

Lemma unmarshalField_absent {T} (U : string → error + list T)
    (data : gmap string string) key :
  data !! key = None ∨ data !! key = Some "" →
  unmarshalField U data key = inr [].
Proof.
  unfold unmarshalField. rewrite lookup_total_alt.
  by intros [->| ->].
Qed.

Lemma unmarshalField_present {T} (U : string → error + list T)
    (data : gmap string string) key s :
  data !! key = Some s → s ≠ "" →
  unmarshalField U data key = U s.
Proof.
  intros H Hs. unfold unmarshalField. rewrite lookup_total_alt, H. simpl.
  destruct (Nat.ltb_spec 0 (String.length s)) as [_|Hle]; [done|].
  exfalso. apply Hs, length_zero_empty. lia.
Qed.

Section Parsing.

Variable UnmarshalStrings : string → error + list string.
Variable UnmarshalResourceConfigs : string → error + list ResourceConfig.t.

Lemma PopulateConfigsFromMap_run data g :
  PopulateConfigsFromMap UnmarshalStrings UnmarshalResourceConfigs data g
  = Some
      (match unmarshalField UnmarshalStrings data "blacklist" with
       | inl err => (None, Some (ErrInitConfig err))
       | inr bl =>
           match unmarshalField UnmarshalResourceConfigs data "whitelist" with
           | inl err => (None, Some (ErrInitConfig err))
           | inr wl =>
               match selectionError bl wl with
               | Some e => (None, Some e)
               | None =>
                   (Some (MeshsyncConfig.mk bl
                            (pipelinesMap
                               (resolvedPipelines bl wl g ScopeGlobal)
                               (resolvedPipelines bl wl g ScopeLocal))
                            wl), None)
               end
           end
       end, g).
Proof.
  unfold PopulateConfigsFromMap.
  destruct (unmarshalField UnmarshalStrings data "blacklist") as [e|bl];
    [done|].
  destruct (unmarshalField UnmarshalResourceConfigs data "whitelist")
    as [e|wl]; [done|].
  exact (resolvePipelines_run bl wl g).
Qed.

(** X1: a key that is absent from the input map, or present with the empty
    string, is never handed to [Unmarshal]; when that holds of both keys
    the result is the MissingSelection failure, whatever [Unmarshal] would
    have answered. *)
Theorem PopulateConfigsFromMap_absent_or_empty
    (data : gmap string string) (g : Globals) :
  data !! "blacklist" = None ∨ data !! "blacklist" = Some "" →
  data !! "whitelist" = None ∨ data !! "whitelist" = Some "" →
  PopulateConfigsFromMap UnmarshalStrings UnmarshalResourceConfigs data g
  = Some ((None, Some MissingSelection), g).
Proof.
  intros Hb Hw. rewrite PopulateConfigsFromMap_run.
  by rewrite (unmarshalField_absent _ _ _ Hb), (unmarshalField_absent _ _ _ Hw).
Qed.

(** X2: the result depends on the input map through its two keys
    "blacklist" and "whitelist" only; every other key is ignored. *)
Theorem PopulateConfigsFromMap_only_two_keys
    (data data' : gmap string string) (g : Globals) :
  data !! "blacklist" = data' !! "blacklist" →
  data !! "whitelist" = data' !! "whitelist" →
  PopulateConfigsFromMap UnmarshalStrings UnmarshalResourceConfigs data g
  = PopulateConfigsFromMap UnmarshalStrings UnmarshalResourceConfigs data' g.
Proof.
  intros Hb Hw. rewrite !PopulateConfigsFromMap_run.
  by rewrite (unmarshalField_lookup _ _ _ _ Hb),
             (unmarshalField_lookup _ _ _ _ Hw).
Qed.

(** X3: when the non-empty "blacklist" value fails to parse, the failure is
    returned wrapped in [ErrInitConfig], with a nil configuration, whatever
    the "whitelist" key holds. *)
Theorem PopulateConfigsFromMap_blacklist_error
    (data : gmap string string) (g : Globals) (s : string) (err : error) :
  data !! "blacklist" = Some s → s ≠ "" →
  UnmarshalStrings s = inl err →
  PopulateConfigsFromMap UnmarshalStrings UnmarshalResourceConfigs data g
  = Some ((None, Some (ErrInitConfig err)), g).
Proof.
  intros Hb Hs He. rewrite PopulateConfigsFromMap_run.
  by rewrite (unmarshalField_present _ _ _ _ Hb Hs), He.
Qed.

(** X4: when the "blacklist" key parses and the non-empty "whitelist" value
    does not, the parse failure is returned wrapped in [ErrInitConfig], with
    a nil configuration, even if the blacklist alone is a valid selection. *)
Theorem PopulateConfigsFromMap_whitelist_error
    (data : gmap string string) (g : Globals) (bl : list string)
    (s : string) (err : error) :
  unmarshalField UnmarshalStrings data "blacklist" = inr bl →
  data !! "whitelist" = Some s → s ≠ "" →
  UnmarshalResourceConfigs s = inl err →
  PopulateConfigsFromMap UnmarshalStrings UnmarshalResourceConfigs data g
  = Some ((None, Some (ErrInitConfig err)), g).
Proof.
  intros Hb Hw Hs He. rewrite PopulateConfigsFromMap_run.
  by rewrite Hb, (unmarshalField_present _ _ _ _ Hw Hs), He.
Qed.

(** X5: a configuration is returned (with a nil error) exactly when both
    fields parse and exactly one of the two parsed lists is non-empty; the
    configuration then holds the two parsed lists. *)
Theorem PopulateConfigsFromMap_success_iff
    (data : gmap string string) (g : Globals) :
  ((∃ c, PopulateConfigsFromMap UnmarshalStrings UnmarshalResourceConfigs data g
         = Some ((Some c, None), g))
   ↔ ∃ bl wl,
       unmarshalField UnmarshalStrings data "blacklist" = inr bl
       ∧ unmarshalField UnmarshalResourceConfigs data "whitelist" = inr wl
       ∧ validSelection bl wl)
  ∧ ∀ c, PopulateConfigsFromMap UnmarshalStrings UnmarshalResourceConfigs data g
         = Some ((Some c, None), g) →
         unmarshalField UnmarshalStrings data "blacklist"
         = inr (MeshsyncConfig.BlackList c)
         ∧ unmarshalField UnmarshalResourceConfigs data "whitelist"
           = inr (MeshsyncConfig.WhiteList c).
Proof.
  rewrite PopulateConfigsFromMap_run.
  destruct (unmarshalField UnmarshalStrings data "blacklist") as [e|bl].
  { split; [split|]; [by intros [c ?] | by intros (? & ? & ? & _) | done]. }
  destruct (unmarshalField UnmarshalResourceConfigs data "whitelist") as [e|wl].
  { split; [split|]; [by intros [c ?] | by intros (? & ? & _ & ? & _) | done]. }
  destruct (selectionError bl wl) as [e|] eqn:He.
  - split; [split|]; [by intros [c ?] | | done].
    intros (bl' & wl' & [= <-] & [= <-] & Hv).
    apply selectionError_valid in Hv. congruence.
  - split; [split|].
    + intros _. exists bl, wl. by rewrite selectionError_valid.
    + intros _. by eexists.
    + by intros c [= <-].
Qed.

End Parsing.

Lemma PopulateConfigsFromMap_absent_or_empty_witness :
  PopulateConfigsFromMap (λ _, inl (errors_New "never parsed"))
    (λ _, inl (errors_New "never parsed"))
    {["blacklist" := ""]} (scenarioGlobals ["ADD"])
  = Some ((None, Some MissingSelection), scenarioGlobals ["ADD"]).
Proof.
  apply (PopulateConfigsFromMap_absent_or_empty
           (λ _, inl (errors_New "never parsed"))
           (λ _, inl (errors_New "never parsed"))
           {["blacklist" := ""]} (scenarioGlobals ["ADD"]));
    [right; reflexivity | left; reflexivity].
Defined.

Lemma PopulateConfigsFromMap_only_two_keys_witness :
  PopulateConfigsFromMap (λ _, inr ["Pod"]) (λ _, inr [])
    {["blacklist" := "b"]} (scenarioGlobals ["ADD"])
  = PopulateConfigsFromMap (λ _, inr ["Pod"]) (λ _, inr [])
      (<["greylist" := "x"]> {["blacklist" := "b"]}) (scenarioGlobals ["ADD"]).
Proof.
  apply (PopulateConfigsFromMap_only_two_keys (λ _, inr ["Pod"]) (λ _, inr [])
           {["blacklist" := "b"]}
           (<["greylist" := "x"]> {["blacklist" := "b"]})
           (scenarioGlobals ["ADD"])); reflexivity.
Defined.

Lemma PopulateConfigsFromMap_blacklist_error_witness :
  PopulateConfigsFromMap (λ _, inl (errors_New "invalid character"))
    (λ _, inr [ResourceConfig.mk "Pod" ["ADD"]])
    (<["whitelist" := "w"]> {["blacklist" := "b"]}) (scenarioGlobals ["ADD"])
  = Some ((None, Some (ErrInitConfig (errors_New "invalid character"))),
          scenarioGlobals ["ADD"]).
Proof.
  apply (PopulateConfigsFromMap_blacklist_error
           (λ _, inl (errors_New "invalid character"))
           (λ _, inr [ResourceConfig.mk "Pod" ["ADD"]])
           (<["whitelist" := "w"]> {["blacklist" := "b"]})
           (scenarioGlobals ["ADD"]) "b" (errors_New "invalid character"));
    [reflexivity | discriminate | reflexivity].
Defined.

Lemma PopulateConfigsFromMap_whitelist_error_witness :
  PopulateConfigsFromMap (λ _, inr ["Pod"])
    (λ _, inl (errors_New "invalid character"))
    (<["whitelist" := "w"]> {["blacklist" := "b"]}) (scenarioGlobals ["ADD"])
  = Some ((None, Some (ErrInitConfig (errors_New "invalid character"))),
          scenarioGlobals ["ADD"]).
Proof.
  apply (PopulateConfigsFromMap_whitelist_error
           (λ _, inr ["Pod"]) (λ _, inl (errors_New "invalid character"))
           (<["whitelist" := "w"]> {["blacklist" := "b"]})
           (scenarioGlobals ["ADD"]) ["Pod"] "w"
           (errors_New "invalid character"));
    [reflexivity | reflexivity | discriminate | reflexivity].
Defined.

(** ** What the resolution reads of the registry *)





(** X7: with an allow-list, the result does not depend on [DefaultEvents]:
    two package states with the same registry resolve to the same
    configuration. *)
Theorem resolvePipelines_allow_list_ignores_default_events
    (wl : list ResourceConfig.t) (g g' : Globals) :
  wl ≠ [] →
  Pipelines g = Pipelines g' →
  ∃ c,
    resolvePipelines (selection [] wl) g = Some ((Some c, None), g)
    ∧ resolvePipelines (selection [] wl) g' = Some ((Some c, None), g').
Proof.
  intros Hwl Hp. eexists.
  split; [apply resolvePipelines_valid; by left|].
  rewrite resolvePipelines_valid by (by left).
  unfold resolvedPipelines, definitionsForScope.
  destruct wl as [|w wl]; [done|]. by rewrite Hp.
Qed.

Lemma resolvePipelines_allow_list_ignores_default_events_witness :
  ∃ c,
    resolvePipelines (selection [] [ResourceConfig.mk "Pod" ["UPDATE"]])
      (scenarioGlobals ["ADD"])
    = Some ((Some c, None), scenarioGlobals ["ADD"])
    ∧ resolvePipelines (selection [] [ResourceConfig.mk "Pod" ["UPDATE"]])
        (scenarioGlobals ["ADDED"; "MODIFIED"; "DELETED"])
      = Some ((Some c, None), scenarioGlobals ["ADDED"; "MODIFIED"; "DELETED"]).
Proof.
  apply (resolvePipelines_allow_list_ignores_default_events
           [ResourceConfig.mk "Pod" ["UPDATE"]] (scenarioGlobals ["ADD"])
           (scenarioGlobals ["ADDED"; "MODIFIED"; "DELETED"]));
    [discriminate | reflexivity].
Defined.

(** ** The deny-list as a set of names *)

Lemma filter_sublist_impl {A} (P Q : A → Prop)
    `{!∀ x, Decision (P x)} `{!∀ x, Decision (Q x)} (l : list A) :
  (∀ x, P x → Q x) → filter P l `sublist_of` filter Q l.
Proof.
  intros HPQ. induction l as [|x l IH]; [done|].
  rewrite !filter_cons.
  destruct (decide (P x)) as [HP|HP], (decide (Q x)) as [HQ|HQ].
  - by apply sublist_skip.
  - by destruct HQ; apply HPQ.
  - by apply sublist_cons.
  - done.
Qed.

(** X8: with a deny-list, each scope's definitions are split between the
    output and the denied ones: the names of the output together with the
    names of the denied definitions are the names of the registry's
    definitions for the scope, each as often, so the two counts add up. *)
Theorem resolvePipelines_deny_list_partition
    (bl : list string) (g : Globals) :
  bl ≠ [] →
  ∃ c,
    resolvePipelines (selection bl []) g = Some ((Some c, None), g)
    ∧ ∀ s,
        (PipelineConfig.Name <$> pipelinesAt c (scopeKey s))
          ++ (PipelineConfig.Name
                <$> filter (λ v, PipelineConfig.Name v ∈ bl)
                      (definitionsForScope g s))
        ≡ₚ PipelineConfig.Name <$> definitionsForScope g s
        ∧ length (pipelinesAt c (scopeKey s))
          + length (filter (λ v, PipelineConfig.Name v ∈ bl)
                      (definitionsForScope g s))
          = length (definitionsForScope g s).
Proof.
  intros Hbl. eexists. split; [apply resolvePipelines_valid; by right|].
  intros s. rewrite resolved_pipelinesAt, resolvedPipelines_deny.
  assert ((PipelineConfig.Name
             <$> notDeniedPipelines bl (DefaultEvents g) (definitionsForScope g s))
            ++ (PipelineConfig.Name
                  <$> filter (λ v, PipelineConfig.Name v ∈ bl)
                        (definitionsForScope g s))
          ≡ₚ PipelineConfig.Name <$> definitionsForScope g s) as Hperm.
  { rewrite notDeniedPipelines_names, <- fmap_app.
    apply fmap_Permutation.
    rewrite (list_filter_iff (λ v, PipelineConfig.Name v ∈ bl)
               (λ v, ¬ (PipelineConfig.Name v ∉ bl))).
    - apply filter_app_complement.
    - intros v. split; [by intros ? ? | apply dec_stable]. }
  split; [exact Hperm|].
  apply Permutation_length in Hperm.
  by rewrite length_app, !length_fmap in Hperm.
Qed.

Lemma resolvePipelines_deny_list_partition_witness :
  ∃ c,
    resolvePipelines (selection ["Pod"] []) (scenarioGlobals ["ADD"])
    = Some ((Some c, None), scenarioGlobals ["ADD"])
    ∧ length (pipelinesAt c (scopeKey ScopeGlobal))
      + length (filter (λ v, PipelineConfig.Name v ∈ ["Pod"])
                  (definitionsForScope (scenarioGlobals ["ADD"]) ScopeGlobal))
      = length (definitionsForScope (scenarioGlobals ["ADD"]) ScopeGlobal).
Proof.
  destruct (resolvePipelines_deny_list_partition ["Pod"]
              (scenarioGlobals ["ADD"]) ltac:(discriminate))
    as (c & Hrun & Hsplit).
  exists c. split; [exact Hrun | exact (proj2 (Hsplit ScopeGlobal))].
Defined.

(** X9: denying more names only removes pipelines: when every name of one
    deny-list is in another, each scope's output for the larger list is a
    sublist of the output for the smaller one. *)
Theorem resolvePipelines_deny_list_monotone
    (bl bl' : list string) (g : Globals) :
  bl ≠ [] →
  (∀ name, name ∈ bl → name ∈ bl') →
  ∃ c c',
    resolvePipelines (selection bl []) g = Some ((Some c, None), g)
    ∧ resolvePipelines (selection bl' []) g = Some ((Some c', None), g)
    ∧ ∀ s, pipelinesAt c' (scopeKey s) `sublist_of` pipelinesAt c (scopeKey s).
Proof.
  intros Hbl Hsub.
  assert (bl' ≠ []) as Hbl'.
  { destruct bl as [|b bl]; [done|]. intros ->.
    by apply (not_elem_of_nil b), Hsub; left. }
  eexists _, _.
  split; [apply resolvePipelines_valid; by right|].
  split; [apply resolvePipelines_valid; by right|].
  intros s. rewrite !resolved_pipelinesAt, !resolvedPipelines_deny.
  unfold notDeniedPipelines. apply fmap_sublist, filter_sublist_impl.
  intros v Hv Hin. by apply Hv, Hsub.
Qed.

Lemma resolvePipelines_deny_list_monotone_witness :
  ∃ c c',
    resolvePipelines (selection ["Pod"] []) (scenarioGlobals ["ADD"])
    = Some ((Some c, None), scenarioGlobals ["ADD"])
    ∧ resolvePipelines (selection ["Service"; "Pod"] []) (scenarioGlobals ["ADD"])
      = Some ((Some c', None), scenarioGlobals ["ADD"])
    ∧ ∀ s, pipelinesAt c' (scopeKey s) `sublist_of` pipelinesAt c (scopeKey s).
Proof.
  apply (resolvePipelines_deny_list_monotone ["Pod"] ["Service"; "Pod"]
           (scenarioGlobals ["ADD"])); [discriminate|].
  intros name Hin. by right.
Defined.

(** X10: a deny-list counts as the set of its names: two non-empty
    deny-lists with the same names, whatever their order and their
    duplicates, resolve to the same pipelines. *)
Theorem resolvePipelines_deny_list_same_names
    (bl bl' : list string) (g : Globals) :
  bl ≠ [] →
  (∀ name, name ∈ bl ↔ name ∈ bl') →
  ∃ c c',
    resolvePipelines (selection bl []) g = Some ((Some c, None), g)
    ∧ resolvePipelines (selection bl' []) g = Some ((Some c', None), g)
    ∧ MeshsyncConfig.Pipelines c' = MeshsyncConfig.Pipelines c.
Proof.
  intros Hbl Hsame.
  assert (bl' ≠ []) as Hbl'.
  { destruct bl as [|b bl]; [done|]. intros ->.
    by apply (not_elem_of_nil b), Hsame; left. }
  eexists _, _.
  split; [apply resolvePipelines_valid; by right|].
  split; [apply resolvePipelines_valid; by right|].
  cbn [MeshsyncConfig.Pipelines]. rewrite !resolvedPipelines_deny.
  by rewrite !(notDeniedPipelines_ext bl' bl) by (intros; symmetry; apply Hsame).
Qed.

Lemma resolvePipelines_deny_list_same_names_witness :
  ∃ c c',
    resolvePipelines (selection ["Pod"] []) (scenarioGlobals ["ADD"])
    = Some ((Some c, None), scenarioGlobals ["ADD"])
    ∧ resolvePipelines (selection ["Pod"; "Pod"] []) (scenarioGlobals ["ADD"])
      = Some ((Some c', None), scenarioGlobals ["ADD"])
    ∧ MeshsyncConfig.Pipelines c' = MeshsyncConfig.Pipelines c.
Proof.
  apply (resolvePipelines_deny_list_same_names ["Pod"] ["Pod"; "Pod"]
           (scenarioGlobals ["ADD"])); [discriminate|].
  intros name. rewrite !elem_of_cons. tauto.
Defined.

(** ** The allow-list as a list of entries *)

Lemma allowedPipelines_app_sublist wl extra (vs : PipelineConfigs) :
  allowedPipelines wl vs `sublist_of` allowedPipelines (wl ++ extra) vs.
Proof.
  unfold allowedPipelines. induction vs as [|v vs IH]; [done|].
  change (omap ?f (?x :: ?l))
    with (match f x with Some y => y :: omap f l | None => omap f l end).
  assert (allowed (wl ++ extra) v
          = match allowed wl v with
            | Some p => Some p
            | None => allowed extra v
            end) as ->.
  { unfold allowed. rewrite firstMatch_app.
    by destruct (firstMatch wl (PipelineConfig.Name v)). }
  destruct (allowed wl v); [by apply sublist_skip|].
  destruct (allowed extra v); [by apply sublist_cons | done].
Qed.

(** X11: entries appended to an allow-list never change or remove a pipeline
    that the list already resolved to: each scope's output for the shorter
    list is a sublist of the output for the extended list. *)
Theorem resolvePipelines_allow_list_append
    (wl extra : list ResourceConfig.t) (g : Globals) :
  wl ≠ [] →
  ∃ c c',
    resolvePipelines (selection [] wl) g = Some ((Some c, None), g)
    ∧ resolvePipelines (selection [] (wl ++ extra)) g
      = Some ((Some c', None), g)
    ∧ ∀ s, pipelinesAt c (scopeKey s) `sublist_of` pipelinesAt c' (scopeKey s).
Proof.
  intros Hwl.
  assert (wl ++ extra ≠ []) as Hwl' by (by destruct wl).
  eexists _, _.
  split; [apply resolvePipelines_valid; by left|].
  split; [apply resolvePipelines_valid; by left|].
  intros s. rewrite !resolved_pipelinesAt. unfold resolvedPipelines.
  destruct (wl ++ extra) as [|x xs] eqn:Hx; [done|]. rewrite <- Hx.
  destruct wl as [|w wl0] eqn:Hw; [done|]. rewrite <- Hw.
  apply allowedPipelines_app_sublist.
Qed.

Lemma resolvePipelines_allow_list_append_witness :
  ∃ c c',
    resolvePipelines (selection [] [ResourceConfig.mk "Pod" ["UPDATE"]])
      (scenarioGlobals ["ADD"])
    = Some ((Some c, None), scenarioGlobals ["ADD"])
    ∧ resolvePipelines
        (selection [] ([ResourceConfig.mk "Pod" ["UPDATE"]]
                       ++ [ResourceConfig.mk "Pod" ["DELETE"];
                           ResourceConfig.mk "Service" ["ADD"]]))
        (scenarioGlobals ["ADD"])
      = Some ((Some c', None), scenarioGlobals ["ADD"])
    ∧ ∀ s, pipelinesAt c (scopeKey s) `sublist_of` pipelinesAt c' (scopeKey s).
Proof.
  apply (resolvePipelines_allow_list_append
           [ResourceConfig.mk "Pod" ["UPDATE"]]
           [ResourceConfig.mk "Pod" ["DELETE"];
            ResourceConfig.mk "Service" ["ADD"]]
           (scenarioGlobals ["ADD"])).
  discriminate.
Defined.

(** X12: with an allow-list, a scope whose registry names are distinct
    resolves to at most as many pipelines as the allow-list has entries. *)
Theorem resolvePipelines_allow_list_bound
    (wl : list ResourceConfig.t) (g : Globals) (s : Scope) :
  wl ≠ [] →
  NoDup (PipelineConfig.Name <$> definitionsForScope g s) →
  ∃ c,
    resolvePipelines (selection [] wl) g = Some ((Some c, None), g)
    ∧ length (pipelinesAt c (scopeKey s)) ≤ length wl.
Proof.
  intros Hwl Hnd. eexists.
  split; [apply resolvePipelines_valid; by left|].
  rewrite resolved_pipelinesAt.
  assert (resolvedPipelines [] wl g s
          = allowedPipelines wl (definitionsForScope g s)) as ->.
  { unfold resolvedPipelines. by destruct wl. }
  rewrite <- (length_fmap PipelineConfig.Name (allowedPipelines _ _)).
  rewrite <- (length_fmap ResourceConfig.Resource wl).
  apply submseteq_length, NoDup_submseteq.
  - rewrite allowedPipelines_names.
    apply (sublist_NoDup _ _ Hnd), fmap_sublist, sublist_filter.
  - intros name (p & -> & Hp)%list_elem_of_fmap.
    apply elem_of_allowedPipelines in Hp as (v & e & _ & He & ->).
    apply firstMatch_Some in He as [He Hr].
    apply list_elem_of_fmap. exists e. by rewrite Hr.
Qed.

Lemma resolvePipelines_allow_list_bound_witness :
  ∃ c,
    resolvePipelines (selection [] [ResourceConfig.mk "Pod" ["UPDATE"]])
      (scenarioGlobals ["ADD"])
    = Some ((Some c, None), scenarioGlobals ["ADD"])
    ∧ length (pipelinesAt c (scopeKey ScopeGlobal)) ≤ 1.
Proof.
  apply (resolvePipelines_allow_list_bound
           [ResourceConfig.mk "Pod" ["UPDATE"]] (scenarioGlobals ["ADD"])
           ScopeGlobal); [discriminate|].
  apply (bool_decide_unpack _). by vm_compute.
Defined.

Lemma firstMatch_NoDup wl e :
  NoDup (ResourceConfig.Resource <$> wl) → e ∈ wl →
  firstMatch wl (ResourceConfig.Resource e) = Some e.
Proof.
  unfold firstMatch. induction wl as [|x wl IH]; intros Hnd He.
  - by apply elem_of_nil in He.
  - rewrite fmap_cons in Hnd. apply NoDup_cons in Hnd as [Hx Hnd].
    cbn [List.find].
    apply elem_of_cons in He as [->|He].
    + by rewrite String.eqb_refl.
    + destruct (String.eqb_spec (ResourceConfig.Resource x)
                  (ResourceConfig.Resource e)) as [Heq|_]; [|by apply IH].
      exfalso. apply Hx. rewrite Heq. by apply list_elem_of_fmap_2.
Qed.

Lemma firstMatch_Permutation wl wl' name :
  NoDup (ResourceConfig.Resource <$> wl) → wl ≡ₚ wl' →
  firstMatch wl name = firstMatch wl' name.
Proof.
  intros Hnd Hp.
  assert (NoDup (ResourceConfig.Resource <$> wl')) as Hnd' by (by rewrite <- Hp).
  destruct (firstMatch wl name) as [e|] eqn:He.
  - apply firstMatch_Some in He as [He <-]. symmetry.
    apply firstMatch_NoDup; [done | by rewrite <- Hp].
  - symmetry. apply firstMatch_None. intros e He'.
    apply (proj1 (firstMatch_None _ _) He). by rewrite Hp.
Qed.

(** X13: an allow-list whose entries carry distinct resource names may be
    given in any order: every permutation of it resolves to the same
    pipelines. *)
Theorem resolvePipelines_allow_list_any_order
    (wl wl' : list ResourceConfig.t) (g : Globals) :
  wl ≠ [] →
  NoDup (ResourceConfig.Resource <$> wl) →
  wl ≡ₚ wl' →
  ∃ c c',
    resolvePipelines (selection [] wl) g = Some ((Some c, None), g)
    ∧ resolvePipelines (selection [] wl') g = Some ((Some c', None), g)
    ∧ MeshsyncConfig.Pipelines c' = MeshsyncConfig.Pipelines c.
Proof.
  intros Hwl Hnd Hp.
  assert (validSelection [] wl) as Hv by (by left).
  pose proof (validSelection_Permutation [] wl [] wl' ltac:(done) Hp Hv) as Hv'.
  eexists _, _.
  split; [by apply resolvePipelines_valid|].
  split; [by apply resolvePipelines_valid|].
  cbn [MeshsyncConfig.Pipelines].
  by rewrite !(resolvedPipelines_Permutation [] wl [] wl' g _ ltac:(done) Hp
                 (λ name, firstMatch_Permutation wl wl' name Hnd Hp)).
Qed.

Lemma resolvePipelines_allow_list_any_order_witness :
  ∃ c c',
    resolvePipelines
      (selection [] [ResourceConfig.mk "Service" ["ADD"];
                     ResourceConfig.mk "Pod" ["UPDATE"]])
      (scenarioGlobals ["ADD"])
    = Some ((Some c, None), scenarioGlobals ["ADD"])
    ∧ resolvePipelines
        (selection [] [ResourceConfig.mk "Pod" ["UPDATE"];
                       ResourceConfig.mk "Service" ["ADD"]])
        (scenarioGlobals ["ADD"])
      = Some ((Some c', None), scenarioGlobals ["ADD"])
    ∧ MeshsyncConfig.Pipelines c' = MeshsyncConfig.Pipelines c.
Proof.
  apply (resolvePipelines_allow_list_any_order
           [ResourceConfig.mk "Service" ["ADD"]; ResourceConfig.mk "Pod" ["UPDATE"]]
           [ResourceConfig.mk "Pod" ["UPDATE"]; ResourceConfig.mk "Service" ["ADD"]]
           (scenarioGlobals ["ADD"])).
  - discriminate.
  - apply (bool_decide_unpack _). by vm_compute.
  - apply perm_swap.
Defined.

(** ** The output read back as an allow-list *)

Lemma pickPipelines_ext events events' (vs : PipelineConfigs) :
  (∀ v, v ∈ vs →
        events (PipelineConfig.Name v) = events' (PipelineConfig.Name v)) →
  pickPipelines events vs = pickPipelines events' vs.
Proof.
  unfold pickPipelines. induction vs as [|v vs IH]; intros H; [done|].
  change (omap ?f (?x :: ?l))
    with (match f x with Some y => y :: omap f l | None => omap f l end).
  cbv beta.
  rewrite (H v) by left.
  rewrite IH; [done|]. intros v' Hv'. apply H. by right.
Qed.

Lemma elem_of_pickPipelines events (vs : PipelineConfigs) p :
  p ∈ pickPipelines events vs
  ↔ ∃ v e, v ∈ vs ∧ events (PipelineConfig.Name v) = Some e
           ∧ p = withEvents e v.
Proof.
  unfold pickPipelines. rewrite list_elem_of_omap. split.
  - intros (v & Hv & Hp). exists v.
    destruct (events (PipelineConfig.Name v)) as [e|]; [|done].
    exists e. simpl in Hp. by injection Hp as <-.
  - intros (v & e & Hv & He & ->). exists v. by rewrite He.
Qed.

Lemma allowedPipelines_pick wl (vs : PipelineConfigs) :
  allowedPipelines wl vs
  = pickPipelines (λ name, ResourceConfig.Events <$> firstMatch wl name) vs.
Proof.
  unfold allowedPipelines, pickPipelines.
  induction vs as [|v vs IH]; [done|].
  change (omap ?f (?x :: ?l))
    with (match f x with Some y => y :: omap f l | None => omap f l end).
  cbv beta.
  rewrite IH. unfold allowed.
  by destruct (firstMatch wl (PipelineConfig.Name v)).
Qed.

Lemma notDeniedPipelines_pick bl events (vs : PipelineConfigs) :
  notDeniedPipelines bl events vs
  = pickPipelines (λ name, if decide (name ∈ bl) then None else Some events) vs.
Proof.
  unfold notDeniedPipelines, pickPipelines.
  induction vs as [|v vs IH]; [done|].
  change (omap ?f (?x :: ?l))
    with (match f x with Some y => y :: omap f l | None => omap f l end).
  cbv beta.
  rewrite filter_cons, <- IH.
  destruct (decide (PipelineConfig.Name v ∉ bl)) as [Hn|Hn],
           (decide (PipelineConfig.Name v ∈ bl)) as [Hi|Hi]; done.
Qed.

Lemma resolvedPipelines_pick bl wl g :
  ∃ events, ∀ s,
    resolvedPipelines bl wl g s
    = pickPipelines events (definitionsForScope g s).
Proof.
  unfold resolvedPipelines. destruct wl as [|w wl].
  - eexists. intros s. apply notDeniedPipelines_pick.
  - eexists. intros s. apply allowedPipelines_pick.
Qed.

Lemma firstMatch_asWhiteList events (ps : PipelineConfigs) name :
  (∀ p, p ∈ ps →
        events (PipelineConfig.Name p) = Some (PipelineConfig.Events p)) →
  (∀ e, events name = Some e → ∃ p, p ∈ ps ∧ PipelineConfig.Name p = name) →
  ResourceConfig.Events <$> firstMatch (asWhiteList ps) name = events name.
Proof.
  intros Hps Hname.
  destruct (firstMatch (asWhiteList ps) name) as [c|] eqn:Hc; simpl.
  - apply firstMatch_Some in Hc as [Hin <-].
    apply list_elem_of_fmap in Hin as (p & -> & Hp). simpl.
    symmetry. by apply Hps.
  - destruct (events name) as [e|] eqn:He; [|done].
    destruct (Hname e eq_refl) as (p & Hp & Hn).
    exfalso.
    apply (proj1 (firstMatch_None _ _) Hc
             (ResourceConfig.mk (PipelineConfig.Name p) (PipelineConfig.Events p)));
      [|done].
    exact (list_elem_of_fmap_2
             (λ q, ResourceConfig.mk (PipelineConfig.Name q)
                     (PipelineConfig.Events q)) ps p Hp).
Qed.

Lemma pickPipelines_asWhiteList events (vsG vsL vs : PipelineConfigs) :
  (∀ v, v ∈ vs → v ∈ vsG ∨ v ∈ vsL) →
  allowedPipelines
    (asWhiteList (pickPipelines events vsG ++ pickPipelines events vsL)) vs
  = pickPipelines events vs.
Proof.
  intros Hvs. rewrite allowedPipelines_pick.
  apply pickPipelines_ext. intros v Hv.
  apply firstMatch_asWhiteList.
  - intros p Hp. rewrite elem_of_app, !elem_of_pickPipelines in Hp.
    by destruct Hp as [(v' & e & _ & He & ->)|(v' & e & _ & He & ->)].
  - intros e He. exists (withEvents e v). split; [|done].
    rewrite elem_of_app, !elem_of_pickPipelines.
    destruct (Hvs v Hv); [left | right]; by exists v, e.
Qed.

(** X14: the pipelines a selection resolves to, read back as an allow-list
    (one entry per pipeline, with its name and events, the global scope
    first), resolve to themselves, provided there is at least one. *)
Theorem resolvePipelines_output_as_allow_list
    (bl : list string) (wl : list ResourceConfig.t) (g : Globals)
    (c : MeshsyncConfig.t) :
  resolvePipelines (selection bl wl) g = Some ((Some c, None), g) →
  pipelinesAt c GlobalResourceKey ++ pipelinesAt c LocalResourceKey ≠ [] →
  ∃ c',
    resolvePipelines
      (selection []
         (asWhiteList
            (pipelinesAt c GlobalResourceKey ++ pipelinesAt c LocalResourceKey)))
      g
    = Some ((Some c', None), g)
    ∧ MeshsyncConfig.Pipelines c' = MeshsyncConfig.Pipelines c.
Proof.
  rewrite resolvePipelines_run.
  destruct (selectionError bl wl); [done|]. intros [= <-].
  change GlobalResourceKey with (scopeKey ScopeGlobal).
  change LocalResourceKey with (scopeKey ScopeLocal).
  rewrite (resolved_pipelinesAt bl wl g ScopeGlobal),
          (resolved_pipelinesAt bl wl g ScopeLocal).
  destruct (resolvedPipelines_pick bl wl g) as [events Hpick].
  rewrite !Hpick. intros Hne.
  set (wl' := asWhiteList _).
  assert (wl' ≠ []) as Hwl'.
  { unfold wl', asWhiteList. intros Hnil. apply fmap_nil_inv in Hnil. done. }
  eexists. split; [apply resolvePipelines_valid; by left|].
  cbn [MeshsyncConfig.Pipelines].
  assert (∀ s, resolvedPipelines [] wl' g s
               = pickPipelines events (definitionsForScope g s)) as Heq.
  { intros s. unfold resolvedPipelines.
    destruct wl' as [|x xs] eqn:Hx; [done|]. rewrite <- Hx. unfold wl'.
    apply pickPipelines_asWhiteList. intros v Hv. by destruct s; [left|right]. }
  by rewrite !Heq.
Qed.

Lemma resolvePipelines_output_as_allow_list_witness :
  ∃ c',
    resolvePipelines
      (selection [] (asWhiteList
                       ([] ++ [PipelineConfig.mk "Service"
                                 ["ADDED"; "MODIFIED"; "DELETED"]])))
      (scenarioGlobals ["ADDED"; "MODIFIED"; "DELETED"])
    = Some ((Some c', None), scenarioGlobals ["ADDED"; "MODIFIED"; "DELETED"])
    ∧ MeshsyncConfig.Pipelines c'
      = Some {[ LocalResourceKey :=
                  [PipelineConfig.mk "Service"
                     ["ADDED"; "MODIFIED"; "DELETED"]] ]}.
Proof.
  exact (resolvePipelines_output_as_allow_list ["Pod"] []
           (scenarioGlobals ["ADDED"; "MODIFIED"; "DELETED"])
           (MeshsyncConfig.mk ["Pod"]
              (Some {[ LocalResourceKey :=
                         [PipelineConfig.mk "Service"
                            ["ADDED"; "MODIFIED"; "DELETED"]] ]})
              [])
           (scenario_deny_Pod _) ltac:(vm_compute; discriminate)).
Defined.

(** ** The callers *)

Section Callers_facts.

Variable Dyn : Type.
Variable asMap : Dyn → option (gmap string (option Dyn)).
Variable DynamicInterface : Type.
Variable GetMeshsyncCRD :
  DynamicInterface → option (Unstructured Dyn) * option error.
Variable Marshal : Dyn → error + string.
Variable UnmarshalConfigMap : string → error + ConfigMap.
Variable UnmarshalStrings : string → error + list string.
Variable UnmarshalResourceConfigs : string → error + list ResourceConfig.t.
Variable LocalMeshsyncConfig : gmap string string.

Lemma PopulateConfigsFromMap_result data g :
  ∃ r,
    PopulateConfigsFromMap UnmarshalStrings UnmarshalResourceConfigs data g
    = Some (r, g)
    ∧ ((∃ c, r = (Some c, None)) ∨ (∃ e, r = (None, Some e))).
Proof.
  rewrite PopulateConfigsFromMap_run. eexists. split; [reflexivity|].
  destruct (unmarshalField UnmarshalStrings data "blacklist") as [e|bl];
    [right; by eexists|].
  destruct (unmarshalField UnmarshalResourceConfigs data "whitelist")
    as [e|wl]; [right; by eexists|].
  destruct (selectionError bl wl); [right | left]; by eexists.
Qed.

(** X15: [GetMeshsyncCRDConfigsLocal] returns what [PopulateConfigsFromMap]
    returns for [LocalMeshsyncConfig]: the same configuration, or the same
    error, which it does not wrap again. *)
Theorem GetMeshsyncCRDConfigsLocal_passes_through (g : Globals) :
  GetMeshsyncCRDConfigsLocal UnmarshalStrings UnmarshalResourceConfigs
    LocalMeshsyncConfig g
  = PopulateConfigsFromMap UnmarshalStrings UnmarshalResourceConfigs
      LocalMeshsyncConfig g.
Proof.
  unfold GetMeshsyncCRDConfigsLocal.
  destruct (PopulateConfigsFromMap_result LocalMeshsyncConfig g)
    as (r & Hrun & Hr).
  rewrite (bind_run _ _ _ _ _ Hrun), Hrun.
  by destruct Hr as [[c ->]|[e ->]].
Qed.

(** X16: [GetMeshsyncCRDConfigs] always returns, leaves the package state
    as it found it, and returns either a configuration with a nil error or a
    nil configuration with an error built by [ErrInitConfig]. *)
Theorem GetMeshsyncCRDConfigs_result
    (dyClient : DynamicInterface) (g : Globals) :
  ∃ r,
    GetMeshsyncCRDConfigs Dyn asMap DynamicInterface GetMeshsyncCRD Marshal
      UnmarshalConfigMap UnmarshalStrings UnmarshalResourceConfigs dyClient g
    = Some (r, g)
    ∧ ((∃ c, r = (Some c, None))
       ∨ (∃ e, r = (None, Some (ErrInitConfig e)))).
Proof.
  unfold GetMeshsyncCRDConfigs.
  destruct (GetMeshsyncCRD dyClient) as [crd [err|]];
    [eexists; split; [reflexivity | right; by eexists]|].
  destruct crd as [crd|];
    [|eexists; split; [reflexivity | right; by eexists]].
  destruct (assertMap Dyn asMap (mapIndex Dyn (Object Dyn crd) "spec"))
    as [specMap|]; [|eexists; split; [reflexivity | right; by eexists]].
  destruct (mapIndex Dyn specMap "watch-list") as [configObj|];
    [|eexists; split; [reflexivity | right; by eexists]].
  destruct (Marshal configObj) as [err|configStr];
    [eexists; split; [reflexivity | right; by eexists]|].
  destruct (UnmarshalConfigMap configStr) as [err|configMap];
    [eexists; split; [reflexivity | right; by eexists]|].
  unfold PopulateConfigs.
  destruct (PopulateConfigsFromMap_result (Data configMap) g)
    as (r & Hrun & Hr).
  rewrite (bind_run _ _ _ _ _ Hrun).
  destruct Hr as [[c ->]|[e ->]]; eexists; (split; [reflexivity|]);
    [left | right]; by eexists.
Qed.

(** X17: a custom resource without a "spec" key (or with a nil one) is
    refused as one whose spec is no map, and a spec map without a
    "watch-list" key (or with a nil one) as one that has no Meshsync
    configs; neither [Marshal] nor [Unmarshal] has a say. *)
Theorem GetMeshsyncCRDConfigs_missing_key
    (dyClient : DynamicInterface) (crd : Unstructured Dyn) (g : Globals) :
  GetMeshsyncCRD dyClient = (Some crd, None) →
  (Object Dyn crd !! "spec" = None ∨ Object Dyn crd !! "spec" = Some None →
   GetMeshsyncCRDConfigs Dyn asMap DynamicInterface GetMeshsyncCRD Marshal
     UnmarshalConfigMap UnmarshalStrings UnmarshalResourceConfigs dyClient g
   = Some ((None,
            Some (ErrInitConfig (errors_New "Unable to convert spec to map"))),
           g))
  ∧ (∀ d specMap,
       Object Dyn crd !! "spec" = Some (Some d) →
       asMap d = Some specMap →
       specMap !! "watch-list" = None ∨ specMap !! "watch-list" = Some None →
       GetMeshsyncCRDConfigs Dyn asMap DynamicInterface GetMeshsyncCRD Marshal
         UnmarshalConfigMap UnmarshalStrings UnmarshalResourceConfigs dyClient g
       = Some ((None,
                Some (ErrInitConfig
                        (errors_New
                           "Custom Resource does not have Meshsync Configs"))),
               g)).
Proof.
  intros Hget. unfold GetMeshsyncCRDConfigs. rewrite Hget. split.
  - unfold mapIndex. by intros [->| ->].
  - intros d specMap Hspec Hmap Hwatch.
    unfold mapIndex at 1. rewrite Hspec. simpl. rewrite Hmap.
    unfold mapIndex. by destruct Hwatch as [->| ->].
Qed.

(** X18: once the watch-list of the custom resource is decoded into a config
    map, [GetMeshsyncCRDConfigs] returns the configuration that
    [PopulateConfigsFromMap] returns for the map's data, and wraps its error,
    if any, once more in [ErrInitConfig]. *)
Theorem GetMeshsyncCRDConfigs_decoded
    (dyClient : DynamicInterface) (crd : Unstructured Dyn) (d configObj : Dyn)
    (specMap : gmap string (option Dyn)) (configStr : string)
    (configMap : ConfigMap) (g : Globals) :
  GetMeshsyncCRD dyClient = (Some crd, None) →
  Object Dyn crd !! "spec" = Some (Some d) →
  asMap d = Some specMap →
  specMap !! "watch-list" = Some (Some configObj) →
  Marshal configObj = inr configStr →
  UnmarshalConfigMap configStr = inr configMap →
  ∃ r,
    PopulateConfigsFromMap UnmarshalStrings UnmarshalResourceConfigs
      (Data configMap) g
    = Some (r, g)
    ∧ GetMeshsyncCRDConfigs Dyn asMap DynamicInterface GetMeshsyncCRD Marshal
        UnmarshalConfigMap UnmarshalStrings UnmarshalResourceConfigs dyClient g
      = Some ((r.1, ErrInitConfig <$> r.2), g).
Proof.
  intros Hget Hspec Hmap Hwatch Hmarshal Hunmarshal.
  destruct (PopulateConfigsFromMap_result (Data configMap) g)
    as (r & Hrun & Hr).
  exists r. split; [exact Hrun|].
  unfold GetMeshsyncCRDConfigs. rewrite Hget.
  unfold mapIndex at 1. rewrite Hspec. simpl. rewrite Hmap.
  unfold mapIndex. rewrite Hwatch, Hmarshal, Hunmarshal.
  unfold PopulateConfigs. rewrite (bind_run _ _ _ _ _ Hrun).
  by destruct Hr as [[c ->]|[e ->]].
Qed.

End Callers_facts.

Lemma GetMeshsyncCRDConfigs_missing_key_witness :
  let asMap : string → option (gmap string (option string)) :=
    λ _, Some ∅ in
  let Marshal : string → error + string := λ d, inr d in
  let UnmarshalConfigMap : string → error + ConfigMap :=
    λ _, inr {| Data := ∅ |} in
  GetMeshsyncCRDConfigs string asMap unit
    (λ _, (Some {| Object := ∅ |}, None)) Marshal UnmarshalConfigMap
    (λ _, inr []) (λ _, inr []) tt (scenarioGlobals ["ADD"])
  = Some ((None,
           Some (ErrInitConfig (errors_New "Unable to convert spec to map"))),
          scenarioGlobals ["ADD"])
  ∧ GetMeshsyncCRDConfigs string asMap unit
      (λ _, (Some {| Object := {["spec" := Some "{}"]} |}, None))
      Marshal UnmarshalConfigMap
      (λ _, inr []) (λ _, inr []) tt (scenarioGlobals ["ADD"])
    = Some ((None,
             Some (ErrInitConfig
                     (errors_New
                        "Custom Resource does not have Meshsync Configs"))),
            scenarioGlobals ["ADD"]).
Proof.
  intros asMap Marshal UnmarshalConfigMap. split.
  - apply (proj1 (GetMeshsyncCRDConfigs_missing_key string asMap unit
                    (λ _, (Some {| Object := ∅ |}, None))
                    Marshal UnmarshalConfigMap (λ _, inr []) (λ _, inr [])
                    tt {| Object := ∅ |} (scenarioGlobals ["ADD"]) eq_refl)).
    left. reflexivity.
  - apply (proj2 (GetMeshsyncCRDConfigs_missing_key string asMap unit
                    (λ _, (Some {| Object := {["spec" := Some "{}"]} |}, None))
                    Marshal UnmarshalConfigMap (λ _, inr []) (λ _, inr [])
                    tt {| Object := {["spec" := Some "{}"]} |}
                    (scenarioGlobals ["ADD"]) eq_refl) "{}" ∅);
      [reflexivity | reflexivity | left; reflexivity].
Defined.

Lemma GetMeshsyncCRDConfigs_decoded_witness :
  let asMap : string → option (gmap string (option string)) :=
    λ _, Some {["watch-list" := Some "lists"]} in
  let Marshal : string → error + string := λ d, inr d in
  let UnmarshalConfigMap : string → error + ConfigMap :=
    λ _, inr {| Data := ∅ |} in
  ∃ r,
    PopulateConfigsFromMap (λ _, inr []) (λ _, inr []) ∅
      (scenarioGlobals ["ADD"])
    = Some (r, scenarioGlobals ["ADD"])
    ∧ GetMeshsyncCRDConfigs string asMap unit
        (λ _, (Some {| Object := {["spec" := Some "{}"]} |}, None))
        Marshal UnmarshalConfigMap
        (λ _, inr []) (λ _, inr []) tt (scenarioGlobals ["ADD"])
      = Some ((r.1, ErrInitConfig <$> r.2), scenarioGlobals ["ADD"]).
Proof.
  intros asMap Marshal UnmarshalConfigMap.
  apply (GetMeshsyncCRDConfigs_decoded string asMap unit
           (λ _, (Some {| Object := {["spec" := Some "{}"]} |}, None))
           Marshal UnmarshalConfigMap (λ _, inr []) (λ _, inr [])
           tt {| Object := {["spec" := Some "{}"]} |} "{}" "lists"
           {["watch-list" := Some "lists"]} "lists" {| Data := ∅ |}
           (scenarioGlobals ["ADD"])); reflexivity.
Defined.
